(** * kocha/event: named-event dispatch over pluggable background queues

    A shallow embedding of the [event] package: the process-wide registries,
    [RegisterQueue], [AddHandler], [Trigger] with its asynchronous enqueue
    task, [Start], [SetWorkersPerQueue] and [Stop].

    Package-level variables become the fields of [State]; a function of the
    package becomes a function from [State] to its result and the new
    [State].  Calls that leave the package (methods of a [Queue], the
    [ErrorHandler], a handler) are recorded in [calls], in the order in which
    they are made.  A goroutine started by [go] is kept in the state
    ([tasks], [loops]) until a scheduler step runs it. *)

From stdpp Require Import gmap strings list fin_maps.
From Stdlib Require Import ZArith Ascii.

Local Open Scope Z_scope.

(** ** Values of the package *)

(** Go's [error] values that occur in the package.  [ErrDone] and
    [ErrNotExist] are the two sentinels created by [errors.New]; [Errorf] is a
    value built by [fmt.Errorf] (or any other error of a collaborator);
    [RuntimeError] is the value recovered from a runtime panic. *)
Inductive error : Type :=
  | ErrDone
  | ErrNotExist
  | Errorf (msg : string)
  | RuntimeError (msg : string).

#[global] Instance error_eq_dec : EqDecision error.
Proof. solve_decision. Defined.

Definition nil_dereference : error :=
  RuntimeError "invalid memory address or nil pointer dereference".

(** An argument of an event, Go's [interface{}].  [VChan] stands for the
    values no codec can serialise (channels, functions). *)
Inductive value : Type :=
  | VNil
  | VBool (b : bool)
  | VInt (n : Z)
  | VStr (s : string)
  | VChan (id : nat).

#[global] Instance value_eq_dec : EqDecision value.
Proof. solve_decision. Defined.

(** [payload{name, args}] *)
Record payload : Type := Payload { pld_name : string; pld_args : list value }.

#[global] Instance payload_eq_dec : EqDecision payload.
Proof. solve_decision. Defined.

(** [type handler func(args ...interface{}) error]; [None] is Go's [nil]. *)
Definition handler : Type := list value → option error.

(** [type handlerQueueName struct { handler handler; queueName string }] *)
Record handlerQueueName : Type :=
  HandlerQueueName { hq_handler : handler; hq_queueName : string }.

(** What a call can do besides returning: panic with a value. *)
Inductive outcome (A : Type) : Type :=
  | Return (a : A)
  | Panic (v : error).
Arguments Return {A} a.
Arguments Panic {A} v.

(** ** The two collaborators *)

(** Modelled from the spec: the payload codec ([payload.encode] and
    [payload.decode] are not part of the sources at hand).  Section 4.1 gives
    its contract: [encode] yields the transport string or an error, [decode]
    reverses it, and ([CodecContract]) what was encoded decodes to the same
    name and arguments.  [encode] runs inside the goroutine of [Trigger],
    under its deferred [recover]: like any call it may also panic. *)
Class Codec : Type := {
  encode : payload → outcome (error + string);
  decode : string → error + payload
}.

(** Modelled from the spec: the round-trip law of the codec (section 4.1 and
    the first testable property). *)
Class CodecContract `{Codec} : Prop :=
  decode_encode : ∀ p data, encode p = Return (inr data) → decode data = inr p.

(** The [Queue] interface.  [qref] is a non-nil queue object, [qstore] the
    memory the queue objects live in; a method takes the receiver and the
    store and returns its results with the new store.  [q_Dequeue] is [None]
    while the call blocks.  [q_Enqueue] is called under the deferred
    [recover] of the goroutine of [Trigger]: it returns nil or an error, or
    it panics, and the store is as the call left it. *)
Class QueueBackend : Type := {
  qref : Type;
  qstore : Type;
  q_New : qref → Z → qstore → qref * qstore;
  q_Enqueue : qref → string → qstore → outcome (option error) * qstore;
  q_Dequeue : qref → qstore → option (string * option error * qstore);
  q_Stop : qref → qstore → qstore
}.

(** A value of interface type [Queue]: [None] is the nil interface. *)
Abbreviation Queue := (option qref).

Section Event.
Context `{QB : QueueBackend} `{CD : Codec}.

(** Modelled from the spec: [worker] ([newWorker], [worker.start] and
    [worker.stop] are not part of the sources at hand).  A worker is bound to
    its queue name and its instance view.  The handler table and the wait
    group that [Start] hands to [newWorker] are the process-wide ones: a Go
    map and a pointer are references, so the worker sees the bindings made
    after it was created, and the model reads both from the [State]. *)
Record worker : Type := Worker { wk_queueName : string; wk_queue : qref }.

(** The closure started by [go] in [Trigger]: it captures [queue], [name] and
    [args]. *)
Record task : Type := Task { tk_queue : Queue; tk_pld : payload }.

(** Calls that leave the package. *)
Inductive call : Type :=
  | CallNew (q : qref) (n : Z)
  | CallEnqueue (q : qref) (data : string)
  | CallDequeue (q : qref)
  | CallStop (q : qref)
  | CallErrorHandler (v : error)
  | CallHandler (name : string) (h : handler) (args : list value).

Record State : Type := MkState {
  workersPerQueue : Z;
  queues : gmap string Queue;
  handlerQueueNames : gmap string handlerQueueName;
  workers : list worker;
  wg_enqueue : nat;
  wg_dequeue : nat;
  tasks : list task;
  loops : list worker;
  heap : qstore;
  calls : list call
}.

Definition init (h : qstore) : State :=
  MkState 1 ∅ ∅ [] 0 0 [] [] h [].

Definition set_workersPerQueue (n : Z) (s : State) : State :=
  MkState n (queues s) (handlerQueueNames s) (workers s) (wg_enqueue s)
    (wg_dequeue s) (tasks s) (loops s) (heap s) (calls s).
Definition set_queues (m : gmap string Queue) (s : State) : State :=
  MkState (workersPerQueue s) m (handlerQueueNames s) (workers s)
    (wg_enqueue s) (wg_dequeue s) (tasks s) (loops s) (heap s) (calls s).
Definition set_handlerQueueNames (m : gmap string handlerQueueName)
    (s : State) : State :=
  MkState (workersPerQueue s) (queues s) m (workers s) (wg_enqueue s)
    (wg_dequeue s) (tasks s) (loops s) (heap s) (calls s).
Definition set_workers (l : list worker) (s : State) : State :=
  MkState (workersPerQueue s) (queues s) (handlerQueueNames s) l
    (wg_enqueue s) (wg_dequeue s) (tasks s) (loops s) (heap s) (calls s).
Definition set_wg_enqueue (n : nat) (s : State) : State :=
  MkState (workersPerQueue s) (queues s) (handlerQueueNames s) (workers s) n
    (wg_dequeue s) (tasks s) (loops s) (heap s) (calls s).
Definition set_wg_dequeue (n : nat) (s : State) : State :=
  MkState (workersPerQueue s) (queues s) (handlerQueueNames s) (workers s)
    (wg_enqueue s) n (tasks s) (loops s) (heap s) (calls s).
Definition set_tasks (l : list task) (s : State) : State :=
  MkState (workersPerQueue s) (queues s) (handlerQueueNames s) (workers s)
    (wg_enqueue s) (wg_dequeue s) l (loops s) (heap s) (calls s).
Definition set_loops (l : list worker) (s : State) : State :=
  MkState (workersPerQueue s) (queues s) (handlerQueueNames s) (workers s)
    (wg_enqueue s) (wg_dequeue s) (tasks s) l (heap s) (calls s).
Definition set_heap (h : qstore) (s : State) : State :=
  MkState (workersPerQueue s) (queues s) (handlerQueueNames s) (workers s)
    (wg_enqueue s) (wg_dequeue s) (tasks s) (loops s) h (calls s).

(** Record a call. *)
Definition log (c : call) (s : State) : State :=
  MkState (workersPerQueue s) (queues s) (handlerQueueNames s) (workers s)
    (wg_enqueue s) (wg_dequeue s) (tasks s) (loops s) (heap s)
    (calls s ++ [c]).

(** [ErrorHandler(err)]: the handler installed by the application is a
    collaborator; the call is recorded. *)
Definition ErrorHandler (v : error) (s : State) : State :=
  log (CallErrorHandler v) s.

(** [queues[k]]: indexing a Go map yields the zero value, nil, for a key that
    is absent. *)
Definition queue_at (s : State) (k : string) : Queue :=
  default None (queues s !! k).

(** ** Registration *)

Definition RegisterQueue (name : string) (queue : Queue) (s : State)
    : outcome State :=
  match queue with
  | None => Panic (Errorf "kocha: event: Register queue is nil")
  | Some _ =>
    match queues s !! name with
    | Some _ =>
      Panic (Errorf ("kocha: event: Register queue `" +:+ name
                     +:+ "' is already registered"))
    | None => Return (set_queues (<[name := queue]> (queues s)) s)
    end
  end.

Definition AddHandler (name queueName : string) (h : handler) (s : State)
    : option error * State :=
  match queue_at s queueName with
  | None =>
    (Some (Errorf ("kocha: event: queue `" +:+ queueName
                   +:+ "' isn't registered")), s)
  | Some _ =>
    match handlerQueueNames s !! name with
    | Some _ =>
      (Some (Errorf ("kocha: event: AddHandler called twice for handler "
                     +:+ name)), s)
    | None =>
      (None, set_handlerQueueNames
               (<[name := HandlerQueueName h queueName]> (handlerQueueNames s))
               s)
    end
  end.

(** ** Trigger and its asynchronous task *)

(** [enqueue(queue, pld)]: encode, then [queue.Enqueue(data)].  Calling a
    method of the nil interface is a runtime panic; a panic of [encode] or of
    [Enqueue] goes through [enqueue] to the goroutine that called it. *)
Definition enqueue (queue : Queue) (pld : payload) (s : State)
    : outcome (option error) * State :=
  match encode pld with
  | Panic v => (Panic v, s)
  | Return (inl err) => (Return (Some err), s)
  | Return (inr data) =>
    match queue with
    | None => (Panic nil_dereference, s)
    | Some q =>
      let '(r, h') := q_Enqueue q data (heap s) in
      (r, set_heap h' (log (CallEnqueue q data) s))
    end
  end.

(** The body of the goroutine of [Trigger].  An error of [enqueue] is raised
    with [panic(err)]; the deferred function recovers any panic and hands its
    value to [ErrorHandler]; the deferred [wg.enqueue.Done()] runs last (the
    counter is positive then: [Trigger] has added the goroutine to it). *)
Definition enqueue_task (t : task) (s : State) : State :=
  let '(r, s1) := enqueue (tk_queue t) (tk_pld t) s in
  let s2 := match r with
            | Return None => s1
            | Return (Some err) => ErrorHandler err s1
            | Panic v => ErrorHandler v s1
            end in
  set_wg_enqueue (Nat.pred (wg_enqueue s2)) s2.

Definition Trigger (name : string) (args : list value) (s : State)
    : option error * State :=
  match handlerQueueNames s !! name with
  | None =>
    (Some (Errorf ("kocha: event: handler `" +:+ name +:+ "' isn't added")), s)
  | Some hq =>
    let queue := queue_at s (hq_queueName hq) in
    let s1 := set_wg_enqueue (S (wg_enqueue s)) s in
    (None, set_tasks (tasks s1 ++ [Task queue (Payload name args)]) s1)
  end.

(** A scheduler step: the [i]-th pending goroutine of [Trigger] runs to its
    end. *)
Definition run_task (i : nat) (s : State) : option State :=
  match tasks s !! i with
  | None => None
  | Some t => Some (enqueue_task t (set_tasks (delete i (tasks s)) s))
  end.

(** ** The worker pool *)

Definition SetWorkersPerQueue (n : Z) (s : State) : State :=
  let n := if decide (n < 1) then 1 else n in
  set_workersPerQueue n s.

(** Modelled from the spec: [go worker.start()].  The loop of the worker
    becomes a live goroutine and is counted in [wg.dequeue] until it
    exits. *)
Definition go_start (w : worker) (s : State) : State :=
  set_wg_dequeue (S (wg_dequeue s)) (set_loops (loops s ++ [w]) s).

(** The body of the inner loop of [Start]. *)
Definition launch (name : string) (q : qref) (s : State) : State :=
  let '(view, h') := q_New q (workersPerQueue s) (heap s) in
  let s1 := set_heap h' (log (CallNew q (workersPerQueue s)) s) in
  let w := Worker name view in
  go_start w (set_workers (workers s1 ++ [w]) s1).

(** [for i := 0; i < workersPerQueue; i++ { ... }] *)
Fixpoint launch_n (n : nat) (name : string) (q : qref) (s : State) : State :=
  match n with
  | O => s
  | S n' => launch_n n' name q (launch name q s)
  end.

(** [for name, queue := range queues { ... }] over the entries in the order
    [l].  [queue.New] on a nil [queue] is a runtime panic, reached only when
    the inner loop runs at least once. *)
Fixpoint Start_range (l : list (string * Queue)) (s : State)
    : outcome State :=
  match l with
  | [] => Return s
  | (name, queue) :: l' =>
    match queue with
    | Some q =>
      Start_range l' (launch_n (Z.to_nat (workersPerQueue s)) name q s)
    | None =>
      if decide (0 < workersPerQueue s) then Panic nil_dereference
      else Start_range l' s
    end
  end.

(** Go leaves the order of [range] over a map open; [map_to_list] fixes
    one. *)
Definition Start (s : State) : outcome State :=
  Start_range (map_to_list (queues s)) s.

(** Modelled from the spec: one round of the loop of a worker (section 4.5):
    dequeue, decode, look the handler up, invoke it; every failure but the
    done condition goes to [ErrorHandler].  The result is [None] while
    [Dequeue] blocks; the flag tells whether the loop exits. *)
Definition worker_run (w : worker) (s : State) : option (bool * State) :=
  match q_Dequeue (wk_queue w) (heap s) with
  | None => None
  | Some (data, err, h') =>
    let s1 := set_heap h' (log (CallDequeue (wk_queue w)) s) in
    match err with
    | Some e =>
      if decide (e = ErrDone) then Some (true, s1)
      else Some (false, ErrorHandler e s1)
    | None =>
      match decode data with
      | inl e => Some (false, ErrorHandler e s1)
      | inr p =>
        match handlerQueueNames s1 !! pld_name p with
        | None => Some (false, ErrorHandler ErrNotExist s1)
        | Some hq =>
          let s2 :=
            log (CallHandler (pld_name p) (hq_handler hq) (pld_args p)) s1 in
          match hq_handler hq (pld_args p) with
          | Some e => Some (false, ErrorHandler e s2)
          | None => Some (false, s2)
          end
        end
      end
    end
  end.

(** A scheduler step: the [i]-th live loop does one round.  A loop that exits
    leaves [loops] and is counted out of [wg.dequeue]. *)
Definition run_loop (i : nat) (s : State) : option State :=
  match loops s !! i with
  | None => None
  | Some w =>
    match worker_run w s with
    | None => None
    | Some (true, s1) =>
      Some (set_wg_dequeue (Nat.pred (wg_dequeue s1))
              (set_loops (delete i (loops s1)) s1))
    | Some (false, s1) => Some s1
    end
  end.

(** Modelled from the spec: [worker.stop()] calls [Stop()] on the instance
    view of the worker. *)
Definition worker_stop (w : worker) (s : State) : State :=
  set_heap (q_Stop (wk_queue w) (heap s)) (log (CallStop (wk_queue w)) s).

(** [wg.enqueue.Wait()]: the caller is blocked until the counter is zero;
    meanwhile the pending goroutines of [Trigger] run.  [None]: the counter
    is not zero after [fuel] of them, or none is left to bring it down. *)
Fixpoint wait_enqueue (fuel : nat) (s : State) : option State :=
  if decide (wg_enqueue s = 0%nat) then Some s
  else match fuel with
       | O => None
       | S fuel' =>
         match run_task 0 s with
         | None => None
         | Some s' => wait_enqueue fuel' s'
         end
       end.

(** [wg.dequeue.Wait()]: the live loops run round robin until the counter is
    zero.  A loop whose [Dequeue] blocks yields its turn. *)
Fixpoint wait_dequeue (fuel : nat) (s : State) : option State :=
  if decide (wg_dequeue s = 0%nat) then Some s
  else match fuel with
       | O => None
       | S fuel' =>
         match loops s with
         | [] => None
         | w :: ws =>
           match worker_run w s with
           | None => wait_dequeue fuel' (set_loops (ws ++ [w]) s)
           | Some (true, s1) =>
             wait_dequeue fuel'
               (set_wg_dequeue (Nat.pred (wg_dequeue s1)) (set_loops ws s1))
           | Some (false, s1) =>
             wait_dequeue fuel' (set_loops (ws ++ [w]) s1)
           end
         end
       end.

(** [for _, worker := range workers { worker.stop() }] *)
Definition stop_workers (s : State) : State :=
  foldl (λ s' w, worker_stop w s') s (workers s).

(** [Stop]: the two deferred calls run in reverse order of their [defer]
    statements, [wg.dequeue.Wait()] first and [workers = nil] last. *)
Definition Stop (fuel : nat) (s : State) : option State :=
  s1 ← wait_enqueue fuel s;
  s2 ← wait_dequeue fuel (stop_workers s1);
  Some (set_workers [] s2).

(** ** Operations and runs *)

Inductive op : Type :=
  | OpRegisterQueue (name : string) (queue : Queue)
  | OpAddHandler (name queueName : string) (h : handler)
  | OpTrigger (name : string) (args : list value)
  | OpStart
  | OpSetWorkersPerQueue (n : Z)
  | OpStop (fuel : nat)
  | OpRunTask (i : nat)
  | OpRunLoop (i : nat).

Definition of_outcome {A} (r : outcome A) : option A :=
  match r with Return a => Some a | Panic _ => None end.

(** The state after an operation; [None] when it panics or does not
    return. *)
Definition exec (o : op) (s : State) : option State :=
  match o with
  | OpRegisterQueue name queue => of_outcome (RegisterQueue name queue s)
  | OpAddHandler name queueName h => Some (snd (AddHandler name queueName h s))
  | OpTrigger name args => Some (snd (Trigger name args s))
  | OpStart => of_outcome (Start s)
  | OpSetWorkersPerQueue n => Some (SetWorkersPerQueue n s)
  | OpStop fuel => Stop fuel s
  | OpRunTask i => run_task i s
  | OpRunLoop i => run_loop i s
  end.

Fixpoint run (os : list op) (s : State) : option State :=
  match os with
  | [] => Some s
  | o :: os' => s' ← exec o s; run os' s'
  end.

(** The states the package can be in: those a run leads to from the initial
    values of the package variables. *)
Definition reachable (s : State) : Prop :=
  ∃ h os, run os (init h) = Some s.

(** ** Invariants and observations *)

(** Every bound event name is bound to a queue name that holds a non-nil
    queue. *)
Definition bound_queues_registered (s : State) : Prop :=
  ∀ name hq, handlerQueueNames s !! name = Some hq →
    ∃ q, queues s !! hq_queueName hq = Some (Some q).

(** No entry of the queue registry is nil. *)
Definition queues_not_nil (s : State) : Prop :=
  ∀ name queue, queues s !! name = Some queue → is_Some queue.

(** Each wait group counts the goroutines it is waiting for, and every live
    loop belongs to a worker of the collection. *)
Definition goroutines_counted (s : State) : Prop :=
  wg_enqueue s = length (tasks s) ∧ wg_dequeue s = length (loops s) ∧
  ∀ w, w ∈ loops s → w ∈ workers s.

Definition is_enqueue (c : call) : bool :=
  match c with CallEnqueue _ _ => true | _ => false end.

Definition is_handler_call (c : call) : bool :=
  match c with CallHandler _ _ _ => true | _ => false end.

Definition is_error_report (c : call) : bool :=
  match c with CallErrorHandler _ => true | _ => false end.

(** The calls a goroutine of [Trigger] can make. *)
Definition from_enqueue_task (c : call) : Prop :=
  is_enqueue c || is_error_report c = true.

(** How many of the calls satisfy [f]. *)
Definition count_calls (f : call → bool) (cs : list call) : nat :=
  length (List.filter f cs).

(** No handler was called so far, and the queues are in a condition [K]. *)
Definition quiet (K : qstore → Prop) (s : State) : Prop :=
  K (heap s) ∧ count_calls is_handler_call (calls s) = 0%nat.

(** [s'] has the registries and the setting of [s]. *)
Definition same_registries (s s' : State) : Prop :=
  queues s' = queues s ∧
  handlerQueueNames s' = handlerQueueNames s ∧
  workersPerQueue s' = workersPerQueue s.

(** The worker [w] and the call [c] come from one round of the inner loop of
    [Start]: [c] is [New(k)] on the queue registered under the queue name of
    [w], and the instance view of [w] is what that call returned. *)
Definition launched_from (m : gmap string Queue) (k : Z) (w : worker)
    (c : call) : Prop :=
  ∃ q st, m !! wk_queueName w = Some (Some q) ∧
          c = CallNew q k ∧ wk_queue w = (q_New q k st).1.

(** [Dequeue] on [q] reports the done condition. *)
Definition is_done (q : qref) (st : qstore) : Prop :=
  ∃ data st', q_Dequeue q st = Some (data, Some ErrDone, st').

(** The value that the deferred function of the goroutine of [Trigger]
    recovers, if any: the error that [enqueue] returned, raised again by
    [panic(err)], or the value of a panic below it. *)
Definition failure (r : outcome (option error)) : option error :=
  match r with
  | Return r' => r'
  | Panic v => Some v
  end.

(** The package with another record of calls. *)
Definition with_calls (cs : list call) (s : State) : State :=
  MkState (workersPerQueue s) (queues s) (handlerQueueNames s) (workers s)
    (wg_enqueue s) (wg_dequeue s) (tasks s) (loops s) (heap s) cs.

(** The package with the calls [cs] on record before its own. *)
Definition after_calls (cs : list call) (s : State) : State :=
  with_calls (cs ++ calls s) s.

(** The package without its [i]-th pending goroutine of [Trigger]: the
    goroutine is gone and counted out, and nothing else has changed. *)
Definition drop_task (i : nat) (s : State) : State :=
  set_wg_enqueue (Nat.pred (wg_enqueue s))
    (set_tasks (delete i (tasks s)) s).

(** The [i]-th pending goroutine fails without a trace in the package: when
    it runs it makes the calls [cs] and is gone, and every run from then on
    goes as it goes when the goroutine is just dropped, with the same calls
    after [cs] and the same package at the end. *)
Definition undelivered (cs : list call) (i : nat) (s : State) : Prop :=
  run_task i s = Some (with_calls (calls s ++ cs) (drop_task i s)) ∧
  ∀ os,
    match run os (drop_task i s),
          run os (with_calls (calls s ++ cs) (drop_task i s)) with
    | Some s', Some s'' =>
      with_calls [] s'' = with_calls [] s' ∧
      ∃ d, calls s' = calls s ++ d ∧ calls s'' = calls s ++ cs ++ d
    | None, None => True
    | _, _ => False
    end.

End Event.

(** The part of the contract of a queue that [Stop] relies on (section 4.2
    and the comment of [Dequeue]): once [Stop] was called on a queue its
    [Dequeue] reports [ErrDone], and it keeps doing so while other queues are
    stopped or dequeued from. *)
Class QueueContract `{QueueBackend} : Prop := {
  stop_done : ∀ q st, is_done q (q_Stop q st);
  done_stop : ∀ q q' st, is_done q st → is_done q (q_Stop q' st);
  done_dequeue : ∀ q q' st data err st',
    is_done q st → q_Dequeue q' st = Some (data, err, st') → is_done q st'
}.

(** ** An in-memory queue

    A backend for the examples: a bounded first-in first-out buffer with a
    done flag, in the manner of a buffered channel.  The views handed out by
    [New] share the buffer of the queue they come from.  [Enqueue] returns
    an error when the buffer is full and panics when the queue is done, as a
    send on a closed channel does. *)

Record mem_queue : Type :=
  MemQueue { mq_items : list string; mq_cap : nat; mq_done : bool }.

Definition mem_New (q : nat) (n : Z) (st : list mem_queue)
    : nat * list mem_queue :=
  (q, alter (λ m, MemQueue (mq_items m) (mq_cap m) false) q st).

(** The panic of a send on a channel that was closed. *)
Definition send_on_closed : error := RuntimeError "send on closed channel".

Definition mem_Enqueue (q : nat) (data : string) (st : list mem_queue)
    : outcome (option error) * list mem_queue :=
  match st !! q with
  | None => (Return (Some ErrDone), st)
  | Some m =>
    if mq_done m then (Panic send_on_closed, st)
    else if decide (length (mq_items m) < mq_cap m)%nat
         then (Return None,
               <[q := MemQueue (mq_items m ++ [data]) (mq_cap m) false]> st)
         else (Return (Some (Errorf "queue is full")), st)
  end.

Definition mem_Dequeue (q : nat) (st : list mem_queue)
    : option (string * option error * list mem_queue) :=
  match st !! q with
  | None => Some ("", Some ErrDone, st)
  | Some m =>
    if mq_done m then Some ("", Some ErrDone, st)
    else match mq_items m with
         | [] => None
         | data :: rest =>
           Some (data, None, <[q := MemQueue rest (mq_cap m) false]> st)
         end
  end.

Definition mem_Stop (q : nat) (st : list mem_queue) : list mem_queue :=
  alter (λ m, MemQueue (mq_items m) (mq_cap m) true) q st.

Definition mem_backend : QueueBackend :=
  Build_QueueBackend nat (list mem_queue)
    mem_New mem_Enqueue mem_Dequeue mem_Stop.

(** Every queue of the store is empty and has no room. *)
Definition mem_saturated (st : list mem_queue) : Prop :=
  Forall (λ m, mq_items m = [] ∧ mq_cap m = 0%nat) st.

(** ** A wire format

    A codec for the examples.  A number is written in binary, least
    significant bit first, closed by a dot; a string is its length followed
    by its characters; the payload is the name, the number of arguments and
    the arguments, each behind a one-letter tag. *)

Fixpoint enc_pos (p : positive) : string :=
  match p with
  | xH => "."
  | xO p' => String "0"%char (enc_pos p')
  | xI p' => String "1"%char (enc_pos p')
  end.

Fixpoint dec_pos (s : string) : option (positive * string) :=
  match s with
  | EmptyString => None
  | String c r =>
    if Ascii.eqb c "."%char then Some (xH, r)
    else if Ascii.eqb c "0"%char then
      match dec_pos r with Some (p, r') => Some (xO p, r') | None => None end
    else if Ascii.eqb c "1"%char then
      match dec_pos r with Some (p, r') => Some (xI p, r') | None => None end
    else None
  end.

Definition enc_N (n : N) : string :=
  match n with
  | N0 => "z"
  | Npos p => String "p"%char (enc_pos p)
  end.

Definition dec_N (s : string) : option (N * string) :=
  match s with
  | EmptyString => None
  | String c r =>
    if Ascii.eqb c "z"%char then Some (N0, r)
    else if Ascii.eqb c "p"%char then
      match dec_pos r with Some (p, r') => Some (Npos p, r') | None => None end
    else None
  end.

Definition enc_Z (n : Z) : string :=
  match n with
  | Z0 => "z"
  | Zpos p => String "p"%char (enc_pos p)
  | Zneg p => String "n"%char (enc_pos p)
  end.

Definition dec_Z (s : string) : option (Z * string) :=
  match s with
  | EmptyString => None
  | String c r =>
    if Ascii.eqb c "z"%char then Some (Z0, r)
    else if Ascii.eqb c "p"%char then
      match dec_pos r with Some (p, r') => Some (Zpos p, r') | None => None end
    else if Ascii.eqb c "n"%char then
      match dec_pos r with Some (p, r') => Some (Zneg p, r') | None => None end
    else None
  end.

(** The first [n] characters and the rest. *)
Fixpoint split_at (n : nat) (s : string) : option (string * string) :=
  match n with
  | O => Some (EmptyString, s)
  | S n' =>
    match s with
    | EmptyString => None
    | String c r =>
      match split_at n' r with
      | Some (a, b) => Some (String c a, b)
      | None => None
      end
    end
  end.

Definition enc_str (s : string) : string :=
  enc_N (N.of_nat (String.length s)) +:+ s.

Definition dec_str (s : string) : option (string * string) :=
  match dec_N s with
  | Some (n, r) => split_at (N.to_nat n) r
  | None => None
  end.

Definition enc_value (v : value) : option string :=
  match v with
  | VNil => Some "N"
  | VBool true => Some "T"
  | VBool false => Some "F"
  | VInt n => Some (String "I"%char (enc_Z n))
  | VStr s => Some (String "S"%char (enc_str s))
  | VChan _ => None
  end.

Definition dec_value (s : string) : option (value * string) :=
  match s with
  | EmptyString => None
  | String c r =>
    if Ascii.eqb c "N"%char then Some (VNil, r)
    else if Ascii.eqb c "T"%char then Some (VBool true, r)
    else if Ascii.eqb c "F"%char then Some (VBool false, r)
    else if Ascii.eqb c "I"%char then
      match dec_Z r with Some (n, r') => Some (VInt n, r') | None => None end
    else if Ascii.eqb c "S"%char then
      match dec_str r with Some (a, r') => Some (VStr a, r') | None => None end
    else None
  end.

Fixpoint enc_values (vs : list value) : option string :=
  match vs with
  | [] => Some EmptyString
  | v :: vs' =>
    match enc_value v, enc_values vs' with
    | Some a, Some b => Some (a +:+ b)
    | _, _ => None
    end
  end.

Fixpoint dec_values (n : nat) (s : string) : option (list value * string) :=
  match n with
  | O => Some ([], s)
  | S n' =>
    match dec_value s with
    | Some (v, r) =>
      match dec_values n' r with
      | Some (vs, r') => Some (v :: vs, r')
      | None => None
      end
    | None => None
    end
  end.

Definition wire_encode (p : payload) : error + string :=
  match enc_values (pld_args p) with
  | None => inl (Errorf "event: unsupported argument type")
  | Some body =>
    inr (enc_str (pld_name p)
         +:+ enc_N (N.of_nat (length (pld_args p))) +:+ body)
  end.

Definition wire_decode (data : string) : error + payload :=
  match dec_str data with
  | None => inl (Errorf "event: malformed payload")
  | Some (name, r) =>
    match dec_N r with
    | None => inl (Errorf "event: malformed payload")
    | Some (n, r') =>
      match dec_values (N.to_nat n) r' with
      | Some (args, EmptyString) => inr (Payload name args)
      | _ => inl (Errorf "event: malformed payload")
      end
    end
  end.

Definition wire_codec : Codec :=
  Build_Codec (λ p, Return (wire_encode p)) wire_decode.

(** ** A small application

    One in-memory queue of capacity [cap], registered as "mem", and the event
    "log.error" bound to it. *)

Definition ex_init (cap : nat) : @State mem_backend :=
  @init mem_backend [MemQueue [] cap false].

(** The state after the operations [os], or the state before them when one
    of them does not return. *)
Definition after (os : list (@op mem_backend)) (s : @State mem_backend)
    : @State mem_backend :=
  default s (@run mem_backend wire_codec os s).

Definition h_ok : handler := λ _, None.

Definition h_fail : handler := λ _, Some (Errorf "handler failed").

Definition ex_registered (cap : nat) : @State mem_backend :=
  after [@OpRegisterQueue mem_backend "mem" (Some 0%nat)] (ex_init cap).

Definition ex_bound (cap : nat) : @State mem_backend :=
  after [OpAddHandler "log.error" "mem" h_ok] (ex_registered cap).

Definition ex_triggered (cap : nat) : @State mem_backend :=
  after [OpTrigger "log.error" [VStr "boom"]] (ex_bound cap).

Definition ex_started (cap : nat) : @State mem_backend :=
  after [OpStart] (ex_triggered cap).

(** The workers were started and stopped again: the queue is done. *)
Definition ex_stopped (cap : nat) : @State mem_backend :=
  after [OpStop 1] (ex_started cap).

(** An event with an argument that the wire format cannot carry. *)
Definition ex_unencodable : @State mem_backend :=
  after [OpAddHandler "log.error" "mem" h_ok;
         OpTrigger "log.error" [VChan 7]] (ex_registered 4).

(** Two queues, "mem" and "file", and three workers per queue. *)
Definition ex_two_queues : @State mem_backend :=
  after [@OpRegisterQueue mem_backend "mem" (Some 0%nat);
         @OpRegisterQueue mem_backend "file" (Some 1%nat);
         OpSetWorkersPerQueue 3]
    (@init mem_backend [MemQueue [] 4 false; MemQueue [] 4 false]).

(** * Runs of the package, counted *)

Section EventRuns.
Context `{QB : QueueBackend} `{CD : Codec}.

(** How many of the operations [os], run from [s], are calls of [Trigger]
    that return nil. *)
Fixpoint successful_triggers (os : list op) (s : State) : nat :=
  match os with
  | [] => 0
  | o :: os' =>
    (match o with
     | OpTrigger name args =>
       match (Trigger name args s).1 with None => 1 | Some _ => 0 end
     | _ => 0
     end
     + match exec o s with
       | Some s' => successful_triggers os' s'
       | None => 0
       end)%nat
  end.

(** The calls of [Enqueue] made so far, and the goroutines of [Trigger] that
    have yet to run. *)
Definition enqueue_account (s : State) : nat :=
  (count_calls is_enqueue (calls s) + length (tasks s))%nat.


(** Nothing is left for [Stop] to wait for or to stop. *)
Definition idle (s : State) : Prop :=
  wg_enqueue s = 0%nat ∧ wg_dequeue s = 0%nat ∧ workers s = [].

End EventRuns.

(** * The build command

    [detectVersionTag] and [collectResourcePaths] of the [build] command.
    Both talk to the operating system; what it answers is a parameter
    ([build_env], the file tree), what the command does with the answer is
    the code. *)

(** [buildCommand] without its flag set. *)
Record buildCommand : Type :=
  BuildCommand { all : bool; versionTag : string }.

(** What the operating system and the libraries answer to
    [detectVersionTag]: [os.Stat(dir)] (whether it finds a directory),
    [time.Now().Format(time.RFC1123Z)] at the first and at the second call,
    [exec.LookPath], the output and the error of
    [exec.Command(bin, args...).Output()], [strings.TrimSpace], and
    [util.PanicOnError], which is not part of the sources at hand and may
    return or panic. *)
Record build_env : Type := BuildEnv {
  stat_is_dir : string → bool;
  time_now : nat → string;
  look_path : string → error + string;
  command_output : string → list string → string * option error;
  TrimSpace : string → string;
  PanicOnError : string → error → outcome unit
}.

(** The double quote, which the messages contain. *)
Definition dquote : string := String "034"%char EmptyString.

(** [fmt.Println(a, b)] of two strings prints them with a space between
    (and nothing is substituted for a verb in [a]). *)
Definition Println2 (a b : string) : string := a +:+ " " +:+ b.

Definition warning_not_found (vcs : string) : string :=
  "WARNING: " +:+ vcs +:+ " repository found, but `" +:+ vcs
  +:+ "` command not found. version uses " +:+ dquote +:+ "%s" +:+ dquote.

Definition warning_empty : string :=
  "WARNING: version is empty, use " +:+ dquote +:+ "%s" +:+ dquote.

Definition abort_unexpected : string :=
  "abort: unexpected error: %v" +:+ String "010"%char EmptyString
  +:+ "please specify version explicitly with '-tag' option for avoid the this error.".

(** [for _, dir := range []string{".git", ".hg"}]: the first of them that is
    a directory, or the empty string. *)
Definition find_repo (env : build_env) : string :=
  default "" (List.find (stat_is_dir env) [".git"; ".hg"]).

(** One [case] of the [switch]: the version that the command [vcs args]
    reports, or [version] with a warning when [vcs] is not installed.  The
    result is the version and what was printed. *)
Definition repo_version (env : build_env) (vcs : string) (args : list string)
    (version : string) : outcome string * list string :=
  match look_path env vcs with
  | inl _ => (Return version, [Println2 (warning_not_found vcs) version])
  | inr bin =>
    let '(line, err) := command_output env bin args in
    match err with
    | Some e =>
      match PanicOnError env abort_unexpected e with
      | Panic v => (Panic v, [])
      | Return _ => (Return (TrimSpace env line), [])
      end
    | None => (Return (TrimSpace env line), [])
    end
  end.

(** [detectVersionTag]: the version and the lines it prints. *)
Definition detectVersionTag (env : build_env) (c : buildCommand)
    : outcome string * list string :=
  if decide (versionTag c ≠ "") then (Return (versionTag c), [])
  else
    let repo := find_repo env in
    let version := time_now env 0 in
    let '(r, out) :=
      if decide (repo = ".git")
      then repo_version env "git" ["rev-parse"; "HEAD"] version
      else if decide (repo = ".hg")
           then repo_version env "hg" ["identify"] version
           else (Return version, []) in
    match r with
    | Panic v => (Panic v, out)
    | Return version =>
      if decide (version = "")
      then (Return (time_now env 1),
            out ++ [Println2 warning_empty (time_now env 1)])
      else (Return version, out)
    end.

(** ** Walking the resources *)

(** A file tree without input or output errors.  A [File] is whatever is not
    a directory; the children of a [Dir] are in the order in which
    [filepath.Walk] visits them. *)
#[warnings="-register-all"]
Inductive node : Type :=
  | File (name : string)
  | Dir (name : string) (children : list node).

Definition node_name (n : node) : string :=
  match n with File name => name | Dir name _ => name end.

Definition node_is_dir (n : node) : bool :=
  match n with File _ => false | Dir _ _ => true end.

(** What a [filepath.WalkFunc] returns: nil, [filepath.SkipDir] or another
    error; or it panics. *)
Inductive walk_result : Type :=
  | WalkNil
  | SkipDir
  | WalkErr (e : error)
  | WalkPanic (v : error).

(** A path is the list of its components: [filepath.Join(path, name)] adds a
    component, and [filepath.ToSlash] changes only the separator between
    them. *)
Abbreviation path := (list string).

Fixpoint common_prefix (a b : path) : nat :=
  match a, b with
  | x :: a', y :: b' => if decide (x = y) then S (common_prefix a' b') else O
  | _, _ => O
  end.

(** [filepath.Rel(base, targ)] on paths of one kind (both absolute or both
    relative, where it does not fail): up from [base] to the common prefix,
    then down to [targ].  The empty list is the path ["."]. *)
Definition Rel (base targ : path) : path :=
  let n := common_prefix base targ in
  replicate (length base - n) ".." ++ drop n targ.

(** The [os.FileInfo] that a [WalkFunc] is given, or nil: [Name()] and
    [IsDir()]. *)
Abbreviation FileInfo := (option (string * bool)).

Definition index_out_of_range : error :=
  RuntimeError "index out of range".

(** The function that [collectResourcePaths] hands to [filepath.Walk]; it
    fills the map [result]. *)
Definition collect_visit (root p : path) (info : FileInfo)
    (err : option error) (result : gmap path path)
    : walk_result * gmap path path :=
  match err with
  | Some e => (WalkErr e, result)
  | None =>
    match info with
    | None => (WalkPanic nil_dereference, result)
    | Some (name, is_dir) =>
      match name with
      | EmptyString => (WalkPanic index_out_of_range, result)
      | String c _ =>
        if Ascii.eqb c "."%char
        then ((if is_dir then SkipDir else WalkNil), result)
        else if is_dir then (WalkNil, result)
        else (WalkNil, <[Rel root p := p]> result)
      end
    end
  end.

(** The loop of [filepath.walk] over the names of a directory. *)
Definition walk_names {A : Type}
    (walk_child : path → node → A → walk_result * A) :=
  fix go (p : path) (children : list node) (acc : A) : walk_result * A :=
    match children with
    | [] => (WalkNil, acc)
    | c :: children' =>
      let '(r, acc') := walk_child (p ++ [node_name c]) c acc in
      match r with
      | WalkNil => go p children' acc'
      | SkipDir =>
        if node_is_dir c then go p children' acc' else (SkipDir, acc')
      | _ => (r, acc')
      end
    end.

(** [filepath.walk]: the function is called on the node; on a directory for
    which it returns nil, the children follow. *)
Fixpoint walk {A : Type}
    (walkFn : path → FileInfo → option error → A → walk_result * A)
    (p : path) (n : node) (acc : A) : walk_result * A :=
  match n with
  | File name => walkFn p (Some (name, false)) None acc
  | Dir name children =>
    let '(r, acc1) := walkFn p (Some (name, true)) None acc in
    match r with
    | WalkNil => walk_names (walk walkFn) p children acc1
    | _ => (r, acc1)
    end
  end.

Definition lstat_error : error := Errorf "lstat: no such file or directory".

(** [filepath.Walk(root, walkFn)]; [tree] is what is at [root], if
    anything.  [SkipDir] from the root is not an error. *)
Definition Walk {A : Type}
    (walkFn : path → FileInfo → option error → A → walk_result * A)
    (root : path) (tree : option node) (acc : A) : walk_result * A :=
  let '(r, acc') :=
    match tree with
    | None => walkFn root None (Some lstat_error) acc
    | Some n => walk walkFn root n acc
    end in
  match r with
  | SkipDir => (WalkNil, acc')
  | _ => (r, acc')
  end.

(** [collectResourcePaths(root)]: the error of [filepath.Walk] is dropped. *)
Definition collectResourcePaths (root : path) (tree : option node)
    : outcome (gmap path path) :=
  let '(r, result) := Walk (collect_visit root) root tree ∅ in
  match r with
  | WalkPanic v => Panic v
  | _ => Return result
  end.

(** A name that begins with a dot. *)
Definition hidden (name : string) : bool :=
  match name with
  | EmptyString => false
  | String c _ => Ascii.eqb c "."%char
  end.

(** The files of a tree that are not hidden and lie in no hidden directory,
    each by its path from the root of the tree. *)
Fixpoint visible_files (n : node) : list path :=
  match n with
  | File name => if hidden name then [] else [[]]
  | Dir name children =>
    if hidden name then []
    else flat_map (λ c, (node_name c ::.) <$> visible_files c) children
  end.

(** No name in the tree is empty. *)
#[warnings="-register-all"]
Inductive names_ok : node → Prop :=
  | names_ok_File name : name ≠ "" → names_ok (File name)
  | names_ok_Dir name children :
      name ≠ "" → Forall names_ok children → names_ok (Dir name children).

(** * The loggers

    [initLogger] and the constructors of the built-in loggers.  A built-in
    logger is a pointer to a struct that embeds a [*log.Logger]; the structs
    live in a store, a pointer is an index into it, and two levels that
    list the same pointer share the logger. *)

(** Which of the three built-in loggers: [nullLogger], [consoleLogger] or
    [fileLogger] with its path. *)
Inductive logger_kind : Type :=
  | NullKind
  | ConsoleKind
  | FileKind (file : string).

(** A built-in logger with the prefix and the flags of its [log.Logger]. *)
Record logger_obj : Type :=
  LoggerObj { lo_kind : logger_kind; lo_prefix : string; lo_flags : Z }.

(** A value of the interface [logger]: nil or a pointer to a built-in
    logger. *)
Abbreviation logger := (option nat).

(** [type Loggers []logger]; [None] is the nil slice. *)
Abbreviation Loggers := (option (list logger)).

Record Logger : Type :=
  MkLogger { DEBUG : Loggers; INFO : Loggers; WARN : Loggers; ERROR : Loggers }.

(** [log.Ldate | log.Ltime] *)
Definition defaultLflag : Z := Z.lor 1 2.

(** [NullLogger()] allocates a logger that writes to [ioutil.Discard]. *)
Definition NullLogger (h : list logger_obj) : logger * list logger_obj :=
  (Some (length h), h ++ [LoggerObj NullKind "" 0]).

Definition ConsoleLogger (flag : Z) (h : list logger_obj)
    : logger * list logger_obj :=
  let flag := if decide (flag = -1) then defaultLflag else flag in
  (Some (length h), h ++ [LoggerObj ConsoleKind "" flag]).

Definition with_prefix (prefix : string) (o : logger_obj) : logger_obj :=
  LoggerObj (lo_kind o) prefix (lo_flags o).

(** [l.SetPrefix(prefix)] on the logger at [p]. *)
Definition SetPrefix (prefix : string) (p : nat) (h : list logger_obj)
    : list logger_obj :=
  alter (with_prefix prefix) p h.

(** [for _, logger := range loggers { logger.SetPrefix(prefix) }]; a method
    call on a nil [logger] is a runtime panic. *)
Fixpoint setPrefix_range (ls : list logger) (prefix : string)
    (h : list logger_obj) : outcome (list logger_obj) :=
  match ls with
  | [] => Return h
  | None :: _ => Panic nil_dereference
  | Some p :: ls' => setPrefix_range ls' prefix (SetPrefix prefix p h)
  end.

(** The closure [setPrefix] of [initLogger]; ranging over a nil slice does
    nothing. *)
Definition setPrefix (loggers : Loggers) (prefix : string)
    (h : list logger_obj) : outcome (list logger_obj) :=
  setPrefix_range (default [] loggers) prefix h.

(** [if loggers == nil { loggers = Loggers{NullLogger()} }] *)
Definition or_null (loggers : Loggers) (h : list logger_obj)
    : Loggers * list logger_obj :=
  match loggers with
  | None => let '(l, h') := NullLogger h in (Some [l], h')
  | Some _ => (loggers, h)
  end.

Definition outcome_bind {A B : Type} (r : outcome A) (k : A → outcome B)
    : outcome B :=
  match r with Return a => k a | Panic v => Panic v end.

(** [initLogger(logger)]: [None] is the nil pointer, for which a [Logger] is
    allocated.  The result is the [Logger] behind the pointer returned, with
    the store. *)
Definition initLogger (logger : option Logger) (h : list logger_obj)
    : outcome (Logger * list logger_obj) :=
  let logger := default (MkLogger None None None None) logger in
  let '(debug, h) := or_null (DEBUG logger) h in
  let '(info, h) := or_null (INFO logger) h in
  let '(warn, h) := or_null (WARN logger) h in
  let '(errors, h) := or_null (ERROR logger) h in
  outcome_bind (setPrefix debug "[DEBUG] " h) (λ h,
  outcome_bind (setPrefix info "[INFO] " h) (λ h,
  outcome_bind (setPrefix warn "[WARN] " h) (λ h,
  outcome_bind (setPrefix errors "[ERROR] " h) (λ h,
  Return (MkLogger debug info warn errors, h))))).

(** The two halves of [initLogger]: the levels that are nil get a null
    logger each, then the prefixes are set level by level. *)
Definition alloc_levels (l : Logger) (h : list logger_obj)
    : Logger * list logger_obj :=
  let '(debug, h) := or_null (DEBUG l) h in
  let '(info, h) := or_null (INFO l) h in
  let '(warn, h) := or_null (WARN l) h in
  let '(errors, h) := or_null (ERROR l) h in
  (MkLogger debug info warn errors, h).

Definition set_prefixes (l : Logger) (h : list logger_obj)
    : outcome (list logger_obj) :=
  outcome_bind (setPrefix (DEBUG l) "[DEBUG] " h) (λ h,
  outcome_bind (setPrefix (INFO l) "[INFO] " h) (λ h,
  outcome_bind (setPrefix (WARN l) "[WARN] " h) (λ h,
  setPrefix (ERROR l) "[ERROR] " h))).

(** The four levels of a [Logger]. *)
Definition levels : list (Logger → Loggers) := [DEBUG; INFO; WARN; ERROR].

(** The levels with their prefixes, in the order in which [initLogger] sets
    them. *)
Definition level_tags (l : Logger) : list (Loggers * string) :=
  [(DEBUG l, "[DEBUG] "); (INFO l, "[INFO] ");
   (WARN l, "[WARN] "); (ERROR l, "[ERROR] ")].

(** The level lists the logger at [p]. *)
Definition lists (p : nat) (loggers : Loggers) : Prop :=
  Some p ∈ default [] loggers.

#[global] Instance lists_dec p loggers : Decision (lists p loggers).
Proof. unfold lists. apply _. Defined.

(** The prefix of the last level that lists the logger at [p]. *)
Definition last_tag (l : Logger) (p : nat) : option string :=
  snd <$> last (filter (λ lt, lists p lt.1) (level_tags l)).

(** No logger in the lists of [l] is nil. *)
Definition no_nil_logger (l : Logger) : Prop :=
  Forall (λ lt, None ∉ default [] lt.1) (level_tags l).

(** ** A small build and a small configuration *)

(** A git checkout on a machine where neither [git] nor [hg] is installed;
    the clock shows the same time at every call. *)
Definition ex_env : build_env :=
  BuildEnv (λ dir, bool_decide (dir = ".git"))
           (λ _, "Sat, 31 Oct 2026 12:00:00 +0000")
           (λ _, inl (Errorf "executable file not found in $PATH"))
           (λ _ _, ("", None))
           (λ line, line)
           (λ _ _, Return tt).

(** An application directory with a hidden file, a hidden directory and a
    hidden file below a visible directory. *)
Definition ex_tree : node :=
  Dir "app"
    [Dir ".git" [File "HEAD"];
     File ".gitignore";
     File "main.go";
     Dir "public" [File ".keep"; File "robots.txt"]].

(** One console logger, listed at DEBUG and at ERROR; INFO and WARN are
    nil. *)
Definition ex_store : list logger_obj := (ConsoleLogger (-1) []).2.

Definition ex_logger : Logger :=
  MkLogger (Some [Some 0%nat]) None None (Some [Some 0%nat]).

(** What [initLogger] makes of them. *)
Definition ex_logger_init : Logger :=
  MkLogger (Some [Some 0%nat]) (Some [Some 1%nat]) (Some [Some 2%nat])
           (Some [Some 0%nat]).

Definition ex_store_init : list logger_obj :=
  [LoggerObj ConsoleKind "[ERROR] " 3;
   LoggerObj NullKind "[INFO] " 0;
   LoggerObj NullKind "[WARN] " 0].

(** A run with one [Trigger] on a bound event name and one on a name without
    a binding. *)
Definition ex_two_triggers : list (@op mem_backend) :=
  [@OpRegisterQueue mem_backend "mem" (Some 0%nat);
   OpAddHandler "log.error" "mem" h_ok;
   OpTrigger "log.error" [VStr "boom"];
   OpTrigger "log.info" [VStr "lost"];
   OpRunTask 0].

(** A run that goes on after the bindings are made. *)
Definition ex_later : list (@op mem_backend) :=
  [OpSetWorkersPerQueue 2;
   OpAddHandler "log.error" "mem" h_fail;
   OpTrigger "log.error" [VStr "boom"];
   OpStart;
   OpStop 2].

(** * Properties *)

Section EventFacts.
Context `{QB : QueueBackend} `{CD : Codec}.

Implicit Types (s : State) (name queueName : string) (args : list value)
  (queue : Queue) (w : worker) (t : task).

(** ** Registration *)

(** C6: [RegisterQueue] panics when the queue is nil and when the name is
    already in the queue registry; otherwise it puts the queue under the name
    and changes nothing else. *)
Theorem RegisterQueue_spec s name queue :
  (queue = None → ∃ v, RegisterQueue name queue s = Panic v) ∧
  (is_Some (queues s !! name) → ∃ v, RegisterQueue name queue s = Panic v) ∧
  (∀ q, queue = Some q → queues s !! name = None →
     RegisterQueue name queue s
     = Return (set_queues (<[name := Some q]> (queues s)) s)).
Proof.
  unfold RegisterQueue. split; [|split].
  - intros ->. eauto.
  - intros [old Hold]. rewrite Hold. destruct queue; eauto.
  - intros q -> Hfree. by rewrite Hfree.
Qed.

(** C5: [AddHandler] returns an error and leaves the state as it is when the
    queue name is not registered, and when the event name is already bound;
    otherwise it binds the event name to the handler and the queue name and
    returns nil.  (No entry of the queue registry is nil: [RegisterQueue]
    sees to that, see [reachable_invariants].) *)
Theorem AddHandler_spec s name queueName h :
  (queues s !! queueName = None →
     ∃ err, AddHandler name queueName h s = (Some err, s)) ∧
  (is_Some (handlerQueueNames s !! name) →
     ∃ err, AddHandler name queueName h s = (Some err, s)) ∧
  (queues_not_nil s → is_Some (queues s !! queueName) →
   handlerQueueNames s !! name = None →
     AddHandler name queueName h s
     = (None, set_handlerQueueNames
                (<[name := HandlerQueueName h queueName]> (handlerQueueNames s))
                s)).
Proof.
  unfold AddHandler, queue_at. split; [|split].
  - intros ->. simpl. eauto.
  - intros [old Hold]. rewrite Hold.
    destruct (default None (queues s !! queueName)); eauto.
  - intros Hnn [queue Hq] Hfree. destruct (Hnn _ _ Hq) as [q ->].
    rewrite Hq, Hfree. done.
Qed.

(** ** Trigger *)

(** C3: on an event name without a binding [Trigger] returns an error at
    once and the state is the one before the call: no goroutine is started,
    no call of [Enqueue] is made, no registry or counter changes. *)
Theorem Trigger_unbound s name args :
  handlerQueueNames s !! name = None →
  ∃ err, Trigger name args s = (Some err, s) ∧
         tasks (Trigger name args s).2 = tasks s ∧
         count_calls is_enqueue (calls (Trigger name args s).2)
         = count_calls is_enqueue (calls s).
Proof.
  intros Hnone. unfold Trigger. rewrite Hnone. simpl. eauto.
Qed.

Lemma enqueue_task_calls t s :
  calls (enqueue_task t s)
  = calls s ++
    match encode (tk_pld t) with
    | Panic v => [CallErrorHandler v]
    | Return (inl err) => [CallErrorHandler err]
    | Return (inr data) =>
      match tk_queue t with
      | None => [CallErrorHandler nil_dereference]
      | Some q =>
        CallEnqueue q data ::
        match failure (q_Enqueue q data (heap s)).1 with
        | None => []
        | Some err => [CallErrorHandler err]
        end
      end
    end.
Proof.
  unfold enqueue_task, enqueue.
  destruct (encode (tk_pld t)) as [[err|data]|v]; simpl; [done| |done].
  destruct (tk_queue t) as [q|]; simpl; [|done].
  destruct (q_Enqueue q data (heap s)) as [[[err|]|v] h']; simpl.
  - by rewrite <- app_assoc.
  - done.
  - by rewrite <- app_assoc.
Qed.

(** C2: on an event name with a binding [Trigger] returns nil, whatever the
    arguments; it only starts the goroutine.  When that goroutine fails, by
    an encode error, an error of [Enqueue] or a panic that the deferred
    function recovers (a panic of [encode], a panic of [Enqueue], the call
    of a method of a nil queue), the failure value is given to
    [ErrorHandler], and the goroutine ends: nothing goes back to the caller
    of [Trigger], which has returned nil before. *)
Theorem Trigger_bound s name args hq :
  handlerQueueNames s !! name = Some hq →
  let t := Task (queue_at s (hq_queueName hq)) (Payload name args) in
  (∃ s', Trigger name args s = (None, s') ∧
         tasks s' = tasks s ++ [t] ∧ calls s' = calls s) ∧
  ∀ s0,
    (∀ err, encode (Payload name args) = Return (inl err) →
       calls (enqueue_task t s0) = calls s0 ++ [CallErrorHandler err]) ∧
    (∀ v, encode (Payload name args) = Panic v →
       calls (enqueue_task t s0) = calls s0 ++ [CallErrorHandler v]) ∧
    (∀ data q err st', encode (Payload name args) = Return (inr data) →
       tk_queue t = Some q →
       q_Enqueue q data (heap s0) = (Return (Some err), st') →
       calls (enqueue_task t s0)
       = calls s0 ++ [CallEnqueue q data; CallErrorHandler err]) ∧
    (∀ data q v st', encode (Payload name args) = Return (inr data) →
       tk_queue t = Some q →
       q_Enqueue q data (heap s0) = (Panic v, st') →
       calls (enqueue_task t s0)
       = calls s0 ++ [CallEnqueue q data; CallErrorHandler v]) ∧
    (∀ data, encode (Payload name args) = Return (inr data) →
       tk_queue t = None →
       calls (enqueue_task t s0)
       = calls s0 ++ [CallErrorHandler nil_dereference]) ∧
    (∀ i, tasks s0 !! i = Some t →
       ∃ s1, run_task i s0 = Some s1 ∧ tasks s1 = delete i (tasks s0) ∧
             wg_enqueue s1 = Nat.pred (wg_enqueue s0)).
Proof.
  intros Hb t. split.
  - unfold Trigger. rewrite Hb. eexists. split; [reflexivity|]. done.
  - intros s0. split_and!.
    + intros err He. rewrite enqueue_task_calls. simpl. by rewrite He.
    + intros v He. rewrite enqueue_task_calls. simpl. by rewrite He.
    + intros data q err st' He Hq Henq. rewrite enqueue_task_calls. simpl.
      rewrite He. simpl in Hq. rewrite Hq, Henq. done.
    + intros data q v st' He Hq Henq. rewrite enqueue_task_calls. simpl.
      rewrite He. simpl in Hq. rewrite Hq, Henq. done.
    + intros data He Hq. rewrite enqueue_task_calls. simpl.
      rewrite He. simpl in Hq. by rewrite Hq.
    + intros i Hi. clearbody t. unfold run_task. rewrite Hi.
      eexists. split; [done|]. unfold enqueue_task, enqueue.
      destruct (encode _) as [[err|data]|v]; simpl; [done| |done].
      destruct (tk_queue t) as [q|]; simpl; [|done].
      by destruct (q_Enqueue _ _ _) as [[[?|]|?] ?].
Qed.

(** C4: a call of [Trigger] that returns nil starts one goroutine, and that
    goroutine, when it runs, either reports the encode error or calls
    [Enqueue] of the bound queue once; having run it is gone.  The premise on
    the registries holds in every reachable state
    ([reachable_invariants]). *)
Theorem Trigger_one_enqueue_attempt s name args s' :
  bound_queues_registered s →
  Trigger name args s = (None, s') →
  ∃ hq q,
    handlerQueueNames s !! name = Some hq ∧
    queues s !! hq_queueName hq = Some (Some q) ∧
    let t := Task (Some q) (Payload name args) in
    tasks s' = tasks s ++ [t] ∧
    wg_enqueue s' = S (wg_enqueue s) ∧
    calls s' = calls s ∧
    ∀ s0 i, tasks s0 !! i = Some t →
      ∃ s1 cs, run_task i s0 = Some s1 ∧
        tasks s1 = delete i (tasks s0) ∧
        calls s1 = calls s0 ++ cs ∧
        match encode (Payload name args) with
        | Return (inl err) => cs = [CallErrorHandler err]
        | Panic v => cs = [CallErrorHandler v]
        | Return (inr data) =>
          count_calls is_enqueue cs = 1%nat ∧
          ∃ rest, cs = CallEnqueue q data :: rest
        end.
Proof.
  intros Hinv. unfold Trigger.
  destruct (handlerQueueNames s !! name) as [hq|] eqn:Hb; [|done].
  intros [= <-]. destruct (Hinv _ _ Hb) as [q Hq].
  exists hq, q. unfold queue_at. rewrite Hq. simpl.
  do 5 (split; [done|]). intros s0 i Hi.
  unfold run_task. rewrite Hi. eexists _, _.
  split; [reflexivity|]. split.
  { unfold enqueue_task, enqueue. simpl.
    destruct (encode _) as [[?|?]|?]; simpl; [done| |done].
    by destruct (q_Enqueue _ _ _) as [[[?|]|?] ?]. }
  split; [rewrite enqueue_task_calls; simpl; reflexivity|]. simpl.
  destruct (encode _) as [[err|data]|v]; [done| |done].
  split; [|eauto]. unfold count_calls. simpl.
  by destruct (failure (q_Enqueue _ _ _).1).
Qed.

(** ** What the background steps leave alone *)

Lemma same_registries_refl s : same_registries s s.
Proof. by unfold same_registries. Qed.

Lemma same_registries_trans s1 s2 s3 :
  same_registries s1 s2 → same_registries s2 s3 → same_registries s1 s3.
Proof.
  unfold same_registries. intros (-> & -> & ->) (-> & -> & ->). done.
Qed.

Lemma enqueue_task_registries t s : same_registries s (enqueue_task t s).
Proof.
  unfold enqueue_task, enqueue, same_registries.
  destruct (encode _) as [[?|?]|?]; simpl; [done| |done].
  destruct (tk_queue t); simpl; [|done].
  by destruct (q_Enqueue _ _ _) as [[[?|]|?] ?].
Qed.

Lemma run_task_registries i s s' :
  run_task i s = Some s' → same_registries s s'.
Proof.
  unfold run_task. destruct (tasks s !! i) as [t|]; [|done].
  intros [= <-].
  apply (same_registries_trans _ (set_tasks (delete i (tasks s)) s));
    [done|apply enqueue_task_registries].
Qed.

Lemma worker_run_registries w s b s' :
  worker_run w s = Some (b, s') → same_registries s s'.
Proof.
  unfold worker_run, same_registries.
  destruct (q_Dequeue _ _) as [[[data [e|]] st']|]; [| |done].
  - case_decide; by intros [= <- <-].
  - destruct (decode data) as [e|p]; [by intros [= <- <-]|]. simpl.
    destruct (handlerQueueNames s !! pld_name p) as [hq|];
      [|by intros [= <- <-]].
    destruct (hq_handler hq _); by intros [= <- <-].
Qed.

Lemma run_loop_registries i s s' :
  run_loop i s = Some s' → same_registries s s'.
Proof.
  unfold run_loop. destruct (loops s !! i) as [w|]; [|done].
  destruct (worker_run w s) as [[[] s1]|] eqn:Hrun; [| |done];
    intros [= <-]; apply worker_run_registries in Hrun; apply Hrun.
Qed.

Lemma wait_enqueue_registries fuel s s' :
  wait_enqueue fuel s = Some s' → same_registries s s'.
Proof.
  revert s. induction fuel as [|fuel IH]; intros s; simpl.
  - case_decide; [|done]. intros [= <-]. apply same_registries_refl.
  - case_decide; [intros [= <-]; apply same_registries_refl|].
    destruct (run_task 0 s) as [s1|] eqn:Hrun; [|done]. intros Hw.
    eapply same_registries_trans; [by eapply run_task_registries|by apply IH].
Qed.

Lemma wait_dequeue_registries fuel s s' :
  wait_dequeue fuel s = Some s' → same_registries s s'.
Proof.
  revert s. induction fuel as [|fuel IH]; intros s; simpl.
  - case_decide; [|done]. intros [= <-]. apply same_registries_refl.
  - case_decide; [intros [= <-]; apply same_registries_refl|].
    destruct (loops s) as [|w ws]; [done|].
    destruct (worker_run w s) as [[[] s1]|] eqn:Hrun; intros Hw;
      apply IH in Hw; try apply worker_run_registries in Hrun.
    + eapply same_registries_trans; [exact Hrun|].
      eapply same_registries_trans; [|exact Hw]. done.
    + eapply same_registries_trans; [exact Hrun|].
      eapply same_registries_trans; [|exact Hw]. done.
    + eapply same_registries_trans; [|exact Hw]. done.
Qed.

Lemma stop_workers_registries s : same_registries s (stop_workers s).
Proof.
  unfold stop_workers. generalize (workers s). intros ws. revert s.
  induction ws as [|w ws IH]; intros s; simpl; [apply same_registries_refl|].
  eapply same_registries_trans; [|apply IH]. done.
Qed.

Lemma Stop_registries fuel s s' :
  Stop fuel s = Some s' → same_registries s s'.
Proof.
  unfold Stop. intros Hstop.
  destruct (wait_enqueue fuel s) as [s1|] eqn:H1; [|done]. simpl in Hstop.
  destruct (wait_dequeue fuel (stop_workers s1)) as [s2|] eqn:H2; [|done].
  simpl in Hstop. injection Hstop as <-.
  apply wait_enqueue_registries in H1. apply wait_dequeue_registries in H2.
  pose proof (stop_workers_registries s1) as H3.
  eapply same_registries_trans; [exact H1|].
  eapply same_registries_trans; [exact H3|].
  eapply same_registries_trans; [exact H2|]. done.
Qed.

Lemma launch_registries name q s : same_registries s (launch name q s).
Proof.
  unfold launch. by destruct (q_New _ _ _).
Qed.

Lemma launch_n_registries n name q s :
  same_registries s (launch_n n name q s).
Proof.
  revert s. induction n as [|n IH]; intros s; simpl;
    [apply same_registries_refl|].
  eapply same_registries_trans; [apply launch_registries|apply IH].
Qed.

Lemma Start_range_registries l s s' :
  Start_range l s = Return s' → same_registries s s'.
Proof.
  revert s. induction l as [|[name [q|]] l IH]; intros s; simpl.
  - intros [= <-]. apply same_registries_refl.
  - intros Hs. eapply same_registries_trans;
      [apply launch_n_registries|by apply IH].
  - case_decide; [done|]. apply IH.
Qed.

(** What an operation does to the two registries: [RegisterQueue] adds one
    queue under a fresh name, [AddHandler] adds one binding, under a fresh
    name and to a registered queue, or nothing; the others leave both
    alone. *)
Lemma exec_registries o s s' :
  exec o s = Some s' →
  (handlerQueueNames s' = handlerQueueNames s ∧
   (queues s' = queues s ∨
    ∃ name q, queues s !! name = None ∧
              queues s' = <[name := Some q]> (queues s))) ∨
  (queues s' = queues s ∧
   ∃ name queueName h q,
     handlerQueueNames s !! name = None ∧
     queues s !! queueName = Some (Some q) ∧
     handlerQueueNames s'
     = <[name := HandlerQueueName h queueName]> (handlerQueueNames s)).
Proof.
  destruct o as [name queue|name queueName h|name args| |n|fuel|i|i]; simpl.
  - unfold RegisterQueue. destruct queue as [q|]; [|done].
    destruct (queues s !! name) eqn:Hq; [done|]. intros [= <-].
    left. split; [done|]. right. by exists name, q.
  - unfold AddHandler, queue_at. intros [= <-].
    destruct (queues s !! queueName) as [[q|]|] eqn:Hq; simpl; eauto.
    destruct (handlerQueueNames s !! name) eqn:Hb; simpl; eauto.
    right. split; [done|]. by exists name, queueName, h, q.
  - unfold Trigger. intros [= <-].
    destruct (handlerQueueNames s !! name); simpl; eauto.
  - unfold Start. destruct (Start_range _ s) as [s1|] eqn:Hs; [|done].
    intros [= <-]. apply Start_range_registries in Hs as (-> & -> & _). eauto.
  - intros [= <-]. simpl. eauto.
  - intros Hs. apply Stop_registries in Hs as (-> & -> & _). eauto.
  - intros Hs. apply run_task_registries in Hs as (-> & -> & _). eauto.
  - intros Hs. apply run_loop_registries in Hs as (-> & -> & _). eauto.
Qed.

(** A binding, once made, stays. *)
Lemma exec_binding_stays o s s' name hq :
  exec o s = Some s' → handlerQueueNames s !! name = Some hq →
  handlerQueueNames s' !! name = Some hq.
Proof.
  intros Hex Hb.
  destruct (exec_registries _ _ _ Hex)
    as [[-> _]|[_ (name' & qn & h & q & Hfree & _ & ->)]]; [done|].
  rewrite lookup_insert_ne; [done|]. intros ->. congruence.
Qed.

Lemma run_binding_stays os s s' name hq :
  run os s = Some s' → handlerQueueNames s !! name = Some hq →
  handlerQueueNames s' !! name = Some hq.
Proof.
  revert s. induction os as [|o os IH]; intros s; simpl.
  - by intros [= <-].
  - destruct (exec o s) as [s1|] eqn:Hex; [|done]. simpl. intros Hrun Hb.
    eapply IH; [done|]. by eapply exec_binding_stays.
Qed.

Lemma exec_bound_queues_registered o s s' :
  bound_queues_registered s → exec o s = Some s' →
  bound_queues_registered s'.
Proof.
  intros Hinv Hex name hq.
  destruct (exec_registries _ _ _ Hex)
    as [[-> [->|(qn & q & Hfree & ->)]]
       |[-> (name' & qn & h & q & Hfree & Hq & ->)]].
  - apply Hinv.
  - intros Hb. destruct (Hinv _ _ Hb) as [q' Hq'].
    exists q'. rewrite lookup_insert_ne; [done|]. intros ->. congruence.
  - rewrite lookup_insert. case_decide as Hn.
    + intros [= <-]. simpl. eauto.
    + apply Hinv.
Qed.

Lemma exec_queues_not_nil o s s' :
  queues_not_nil s → exec o s = Some s' → queues_not_nil s'.
Proof.
  intros Hinv Hex name queue.
  destruct (exec_registries _ _ _ Hex)
    as [[_ [->|(qn & q & Hfree & ->)]]|[-> _]]; try apply Hinv.
  rewrite lookup_insert. case_decide; [|apply Hinv].
  intros [= <-]. eauto.
Qed.

Lemma reachable_invariant (P : State → Prop) :
  (∀ h0, P (init h0)) →
  (∀ o s s', P s → exec o s = Some s' → P s') →
  ∀ s, reachable s → P s.
Proof.
  intros Hinit Hstep s (h0 & os & Hrun).
  pose proof (Hinit h0) as HP. revert HP Hrun. generalize (init h0).
  induction os as [|o os IH]; intros s0 HP; simpl.
  - by intros [= <-].
  - destruct (exec o s0) as [s1|] eqn:Hex; [|done]. simpl.
    apply IH. by eapply Hstep.
Qed.

(** C10: every bound event name is bound to a queue name that holds a
    non-nil queue.  This holds when the package is initialised and every
    operation keeps it, the calls of the interface as well as the steps of
    the goroutines; hence it holds in every reachable state, and the queue
    that [Trigger] looks up for a bound event name is not nil. *)
Theorem bound_queues_registered_invariant :
  (∀ h0, bound_queues_registered (init h0)) ∧
  (∀ o s s', bound_queues_registered s → exec o s = Some s' →
     bound_queues_registered s') ∧
  (∀ s, reachable s → bound_queues_registered s) ∧
  (∀ s name args hq, bound_queues_registered s →
     handlerQueueNames s !! name = Some hq →
     ∃ q, queue_at s (hq_queueName hq) = Some q ∧
          tasks (Trigger name args s).2
          = tasks s ++ [Task (Some q) (Payload name args)]).
Proof.
  assert (Hinit : ∀ h0, bound_queues_registered (init h0)).
  { intros h0 name hq. simpl. by rewrite lookup_empty. }
  split; [done|]. split; [apply exec_bound_queues_registered|].
  split.
  - apply reachable_invariant;
      [done|apply exec_bound_queues_registered].
  - intros s name args hq Hinv Hb. destruct (Hinv _ _ Hb) as [q Hq].
    exists q. unfold Trigger, queue_at. rewrite Hb, Hq. done.
Qed.

(** ** Start *)

Lemma launch_spec name q s :
  let w := Worker name (q_New q (workersPerQueue s) (heap s)).1 in
  workers (launch name q s) = workers s ++ [w] ∧
  loops (launch name q s) = loops s ++ [w] ∧
  wg_dequeue (launch name q s) = S (wg_dequeue s) ∧
  calls (launch name q s) = calls s ++ [CallNew q (workersPerQueue s)] ∧
  tasks (launch name q s) = tasks s ∧
  wg_enqueue (launch name q s) = wg_enqueue s.
Proof.
  unfold launch. by destruct (q_New _ _ _).
Qed.

Lemma launch_n_spec n name q m s :
  m !! name = Some (Some q) →
  ∃ ws cs,
    workers (launch_n n name q s) = workers s ++ ws ∧
    loops (launch_n n name q s) = loops s ++ ws ∧
    wg_dequeue (launch_n n name q s) = (wg_dequeue s + length ws)%nat ∧
    calls (launch_n n name q s) = calls s ++ cs ∧
    tasks (launch_n n name q s) = tasks s ∧
    wg_enqueue (launch_n n name q s) = wg_enqueue s ∧
    length ws = n ∧
    Forall2 (launched_from m (workersPerQueue s)) ws cs.
Proof.
  intros Hm. revert s. induction n as [|n IH]; intros s; simpl.
  - exists [], []. rewrite !app_nil_r. simpl.
    split_and!; [done..|lia|done|done|done|done|constructor].
  - destruct (IH (launch name q s))
      as (ws & cs & Hw & Hl & Hwg & Hc & Ht & He & Hlen & Hall).
    destruct (launch_spec name q s) as (Hw1 & Hl1 & Hwg1 & Hc1 & Ht1 & He1).
    destruct (launch_registries name q s) as (_ & _ & Hk).
    rewrite Hk in Hall.
    eexists (_ :: ws), (_ :: cs).
    rewrite Hw, Hl, Hwg, Hc, Ht, He, Hw1, Hl1, Hwg1, Hc1, Ht1, He1.
    rewrite <- !app_assoc. simpl.
    split_and!; [done|done|lia|done|done|done|lia|].
    constructor; [|done]. by exists q, (heap s).
Qed.

Lemma Start_range_spec l m s :
  (∀ name queue, (name, queue) ∈ l → is_Some queue ∧ m !! name = Some queue) →
  ∃ s' ws cs,
    Start_range l s = Return s' ∧
    workers s' = workers s ++ ws ∧
    loops s' = loops s ++ ws ∧
    wg_dequeue s' = (wg_dequeue s + length ws)%nat ∧
    calls s' = calls s ++ cs ∧
    tasks s' = tasks s ∧
    wg_enqueue s' = wg_enqueue s ∧
    length ws = (Z.to_nat (workersPerQueue s) * length l)%nat ∧
    Forall2 (launched_from m (workersPerQueue s)) ws cs.
Proof.
  revert s. induction l as [|[name queue] l IH]; intros s Hl; simpl.
  - exists s, [], []. rewrite !app_nil_r. simpl.
    split_and!; [done|done|done|lia|done|done|done|lia|constructor].
  - destruct (Hl name queue) as [[q ->] Hm]; [left|].
    destruct (launch_n_spec (Z.to_nat (workersPerQueue s)) name q m s Hm)
      as (ws1 & cs1 & Hw1 & Hl1 & Hwg1 & Hc1 & Ht1 & He1 & Hlen1 & Hall1).
    destruct (launch_n_registries (Z.to_nat (workersPerQueue s)) name q s)
      as (_ & _ & Hk).
    destruct (IH (launch_n (Z.to_nat (workersPerQueue s)) name q s))
      as (s' & ws & cs & Hs & Hw & Hl' & Hwg & Hc & Ht & He & Hlen & Hall).
    { intros name' queue' Hin. apply Hl. by right. }
    rewrite Hk in Hlen, Hall.
    exists s', (ws1 ++ ws), (cs1 ++ cs).
    rewrite Hs, Hw, Hl', Hwg, Hc, Ht, He, Hw1, Hl1, Hwg1, Hc1, Ht1, He1.
    rewrite <- !app_assoc, !length_app.
    split_and!; [done|done|done|lia|done|done|done|lia|].
    by apply Forall2_app.
Qed.

(** C7: [Start] adds [workersPerQueue] workers for every registered queue
    to the worker collection, [k * m] in all, and they are the whole
    collection when it was empty before.  Each of them has the instance view
    that [New(workersPerQueue)] returned on the queue registered under its
    queue name, and its loop is started as a goroutine.  The premise holds in
    every reachable state ([reachable_invariants]). *)
Theorem Start_spec s :
  queues_not_nil s →
  ∃ s' ws cs,
    Start s = Return s' ∧
    workers s' = workers s ++ ws ∧
    loops s' = loops s ++ ws ∧
    wg_dequeue s' = (wg_dequeue s + length ws)%nat ∧
    calls s' = calls s ++ cs ∧
    Forall2 (launched_from (queues s) (workersPerQueue s)) ws cs ∧
    length ws = (Z.to_nat (workersPerQueue s) * size (queues s))%nat ∧
    (workers s = [] →
     length (workers s')
     = (Z.to_nat (workersPerQueue s) * size (queues s))%nat).
Proof.
  intros Hnn. unfold Start.
  destruct (Start_range_spec (map_to_list (queues s)) (queues s) s)
    as (s' & ws & cs & Hs & Hw & Hl & Hwg & Hc & _ & _ & Hlen & Hall).
  { intros name queue Hin. apply elem_of_map_to_list in Hin. eauto. }
  rewrite length_map_to_list in Hlen.
  exists s', ws, cs. split_and!; try done.
  intros Hnil. by rewrite Hw, Hnil.
Qed.

(** ** The loop of a worker *)

Lemma worker_run_done w s data st' :
  q_Dequeue (wk_queue w) (heap s) = Some (data, Some ErrDone, st') →
  worker_run w s
  = Some (true, set_heap st' (log (CallDequeue (wk_queue w)) s)).
Proof.
  intros Hd. unfold worker_run. rewrite Hd. by rewrite decide_True.
Qed.


(** ** Stop *)

Lemma enqueue_task_frame t s :
  workers (enqueue_task t s) = workers s ∧
  loops (enqueue_task t s) = loops s ∧
  wg_dequeue (enqueue_task t s) = wg_dequeue s ∧
  tasks (enqueue_task t s) = tasks s ∧
  wg_enqueue (enqueue_task t s) = Nat.pred (wg_enqueue s).
Proof.
  unfold enqueue_task, enqueue.
  destruct (encode _) as [[?|?]|?]; simpl; [done| |done].
  destruct (tk_queue t); simpl; [|done].
  by destruct (q_Enqueue _ _ _) as [[[?|]|?] ?].
Qed.

Lemma enqueue_task_calls_from t s :
  ∃ cs, calls (enqueue_task t s) = calls s ++ cs ∧
        Forall from_enqueue_task cs ∧ (1 ≤ length cs)%nat.
Proof.
  eexists. split; [apply enqueue_task_calls|].
  destruct (encode _) as [[err|data]|v];
    [split; [by repeat constructor|simpl; lia]|
    |split; [by repeat constructor|simpl; lia]].
  destruct (tk_queue t) as [q|].
  - destruct (failure (q_Enqueue _ _ _).1);
      (split; [by repeat constructor|simpl; lia]).
  - split; [by repeat constructor|simpl; lia].
Qed.

Lemma wait_enqueue_spec fuel s :
  wg_enqueue s = length (tasks s) → (length (tasks s) ≤ fuel)%nat →
  ∃ s1 enq,
    wait_enqueue fuel s = Some s1 ∧
    tasks s1 = [] ∧ wg_enqueue s1 = 0%nat ∧
    calls s1 = calls s ++ enq ∧
    Forall from_enqueue_task enq ∧ (length (tasks s) ≤ length enq)%nat ∧
    workers s1 = workers s ∧ loops s1 = loops s ∧
    wg_dequeue s1 = wg_dequeue s.
Proof.
  revert s. induction fuel as [|fuel IH]; intros s Hwg Hlen.
  - exists s, []. simpl. rewrite decide_True by lia.
    rewrite app_nil_r. split_and!; try done; try lia.
    apply length_zero_iff_nil. lia.
  - simpl. case_decide as Hz.
    + exists s, []. rewrite app_nil_r. split_and!; try done; try lia.
      apply length_zero_iff_nil. lia.
    + destruct (tasks s) as [|t ts] eqn:Hts; [simpl in Hwg; lia|].
      unfold run_task. rewrite Hts. simpl.
      set (s0 := set_tasks ts s).
      destruct (enqueue_task_frame t s0) as (Hw & Hl & Hd & Ht & He).
      destruct (enqueue_task_calls_from t s0) as (cs & Hc & Hcs & Hn).
      destruct (IH (enqueue_task t s0))
        as (s1 & enq & Hrun & Ht1 & He1 & Hc1 & Henq & Hn1 & Hw1 & Hl1 & Hd1).
      { rewrite He, Ht. simpl. rewrite Hwg. simpl. done. }
      { rewrite Ht. simpl in *. lia. }
      exists s1, (cs ++ enq). rewrite Hrun, Hc1, Hc, Hw1, Hl1, Hd1, Hw, Hl, Hd.
      rewrite Ht in Hn1. simpl in *.
      rewrite <- app_assoc, length_app.
      split_and!; try done; try lia. by apply Forall_app.
Qed.

Section Stopping.
Context `{QC : !QueueContract}.

Lemma stop_all_spec ws s :
  let s' := foldl (λ s' w, worker_stop w s') s ws in
  calls s' = calls s ++ map (λ w, CallStop (wk_queue w)) ws ∧
  workers s' = workers s ∧ loops s' = loops s ∧ tasks s' = tasks s ∧
  wg_enqueue s' = wg_enqueue s ∧ wg_dequeue s' = wg_dequeue s ∧
  (∀ q, is_done q (heap s) → is_done q (heap s')) ∧
  (∀ w, w ∈ ws → is_done (wk_queue w) (heap s')).
Proof.
  revert s. induction ws as [|w ws IH]; intros s; simpl.
  - rewrite app_nil_r. split_and!; try done. intros w Hw. inversion Hw.
  - destruct (IH (worker_stop w s)) as (Hc & Hw & Hl & Ht & He & Hd & Hk & Hs).
    rewrite Hc, Hw, Hl, Ht, He, Hd. simpl. rewrite <- app_assoc.
    split_and!; try done.
    + intros q Hq. apply Hk. simpl. by apply done_stop.
    + intros w' Hin. apply elem_of_cons in Hin as [->|Hin]; [|by apply Hs].
      apply Hk. simpl. apply stop_done.
Qed.

Lemma wait_dequeue_spec fuel s :
  wg_dequeue s = length (loops s) →
  (∀ w, w ∈ loops s → is_done (wk_queue w) (heap s)) →
  (length (loops s) ≤ fuel)%nat →
  ∃ s2,
    wait_dequeue fuel s = Some s2 ∧
    loops s2 = [] ∧ wg_dequeue s2 = 0%nat ∧
    calls s2 = calls s ++ map (λ w, CallDequeue (wk_queue w)) (loops s) ∧
    workers s2 = workers s ∧ tasks s2 = tasks s ∧
    wg_enqueue s2 = wg_enqueue s.
Proof.
  revert s. induction fuel as [|fuel IH]; intros s Hwg Hdone Hlen.
  - exists s. simpl. rewrite decide_True by lia.
    assert (loops s = []) as Hnil by (apply length_zero_iff_nil; lia).
    rewrite Hnil. simpl. rewrite app_nil_r. split_and!; try done. lia.
  - simpl. case_decide as Hz.
    + exists s.
      assert (loops s = []) as Hnil by (apply length_zero_iff_nil; lia).
      rewrite Hnil. simpl. rewrite app_nil_r. split_and!; try done.
    + destruct (loops s) as [|w ws] eqn:Hls; [simpl in Hwg; lia|].
      destruct (Hdone w) as (data & st' & Hd); [left|].
      rewrite (worker_run_done _ _ _ _ Hd).
      match goal with |- context [wait_dequeue fuel ?x] => set (s1 := x) end.
      destruct (IH s1) as (s2 & Hrun & Hl2 & Hd2 & Hc2 & Hw2 & Ht2 & He2).
      { subst s1. simpl. rewrite Hwg. done. }
      { subst s1. simpl. intros w' Hin.
        eapply done_dequeue; [|exact Hd]. apply Hdone. by right. }
      { subst s1. simpl in *. lia. }
      exists s2. rewrite Hrun, Hc2, Hw2, Ht2, He2. subst s1. simpl.
      rewrite <- app_assoc. done.
Qed.

(** C8: [Stop] first waits until every pending goroutine of [Trigger] has
    run, then calls stop on every worker of the collection, then waits until
    the loop of every worker has left, and last empties the collection.  The
    registries are as before, and a [Start] after it launches the workers of
    all registered queues anew.  The queues keep their contract
    ([QueueContract]), the wait groups count their goroutines, as they do in
    every reachable state ([reachable_invariants]), and [fuel] covers the
    pending goroutines. *)
Theorem Stop_spec s fuel :
  goroutines_counted s →
  (length (tasks s) ≤ fuel)%nat → (length (loops s) ≤ fuel)%nat →
  ∃ s1 s2 s' enq,
    wait_enqueue fuel s = Some s1 ∧
    tasks s1 = [] ∧ wg_enqueue s1 = 0%nat ∧
    calls s1 = calls s ++ enq ∧
    Forall from_enqueue_task enq ∧ (length (tasks s) ≤ length enq)%nat ∧
    calls (stop_workers s1)
    = calls s1 ++ map (λ w, CallStop (wk_queue w)) (workers s) ∧
    wait_dequeue fuel (stop_workers s1) = Some s2 ∧
    loops s2 = [] ∧ wg_dequeue s2 = 0%nat ∧ workers s2 = workers s ∧
    calls s2
    = calls (stop_workers s1)
      ++ map (λ w, CallDequeue (wk_queue w)) (loops s) ∧
    Stop fuel s = Some s' ∧ s' = set_workers [] s2 ∧
    workers s' = [] ∧
    calls s'
    = calls s ++ enq ++ map (λ w, CallStop (wk_queue w)) (workers s)
      ++ map (λ w, CallDequeue (wk_queue w)) (loops s) ∧
    same_registries s s' ∧
    (queues_not_nil s →
     ∃ s'' ws, Start s' = Return s'' ∧
       workers s'' = ws ∧ loops s'' = ws ∧ wg_dequeue s'' = length ws ∧
       length ws = (Z.to_nat (workersPerQueue s) * size (queues s))%nat).
Proof.
  intros (Hwe & Hwd & Htracked) Hft Hfl.
  destruct (wait_enqueue_spec fuel s Hwe Hft)
    as (s1 & enq & Hrun1 & Ht1 & He1 & Hc1 & Henq & Hn1 & Hw1 & Hl1 & Hd1).
  destruct (stop_all_spec (workers s1) s1)
    as (Hcs & Hws & Hls & Hts & Hes & Hds & _ & Hdone).
  fold (stop_workers s1) in Hcs, Hws, Hls, Hts, Hes, Hds, Hdone.
  destruct (wait_dequeue_spec fuel (stop_workers s1))
    as (s2 & Hrun2 & Hl2 & Hd2 & Hc2 & Hw2 & Ht2 & He2).
  { by rewrite Hds, Hls, Hd1, Hl1. }
  { intros w Hin. apply Hdone. rewrite Hw1. apply Htracked.
    by rewrite Hls, Hl1 in Hin. }
  { by rewrite Hls, Hl1. }
  assert (Hstop : Stop fuel s = Some (set_workers [] s2)).
  { unfold Stop. rewrite Hrun1. simpl. by rewrite Hrun2. }
  pose proof (Stop_registries _ _ _ Hstop) as Hreg.
  rewrite Hw1 in Hcs. rewrite Hls, Hl1 in Hc2.
  exists s1, s2, (set_workers [] s2), enq.
  split_and!; try done.
  - by rewrite Hw2, Hws.
  - simpl. by rewrite Hc2, Hcs, Hc1, <- !app_assoc.
  - intros Hnn.
    destruct Hreg as (Hq & _ & Hk).
    destruct (Start_range_spec (map_to_list (queues s)) (queues s)
                (set_workers [] s2))
      as (s'' & ws & cs & Hs & Hw & Hl & Hwg & _ & _ & _ & Hlen & _).
    { intros name queue Hin. apply elem_of_map_to_list in Hin. eauto. }
    rewrite length_map_to_list, Hk in Hlen.
    simpl in Hw, Hl, Hwg. rewrite Hl2 in Hl. rewrite Hd2 in Hwg.
    exists s'', ws. unfold Start. rewrite Hq. by split_and!.
Qed.

End Stopping.

(** ** The wait groups count the goroutines *)

Lemma worker_run_frame w s b s' :
  worker_run w s = Some (b, s') →
  workers s' = workers s ∧ loops s' = loops s ∧ tasks s' = tasks s ∧
  wg_enqueue s' = wg_enqueue s ∧ wg_dequeue s' = wg_dequeue s.
Proof.
  unfold worker_run.
  destruct (q_Dequeue _ _) as [[[data [e|]] st']|]; [| |done].
  - case_decide; by intros [= <- <-].
  - destruct (decode data) as [e|p]; [by intros [= <- <-]|]. simpl.
    destruct (handlerQueueNames s !! pld_name p) as [hq|];
      [|by intros [= <- <-]].
    destruct (hq_handler hq _); by intros [= <- <-].
Qed.

Lemma run_task_counted i s s' :
  goroutines_counted s → run_task i s = Some s' → goroutines_counted s'.
Proof.
  intros (He & Hd & Hsub). unfold run_task.
  destruct (tasks s !! i) as [t|] eqn:Hi; [|done]. intros [= <-].
  destruct (enqueue_task_frame t (set_tasks (delete i (tasks s)) s))
    as (Hw & Hl & Hd' & Ht & He').
  unfold goroutines_counted. rewrite Hw, Hl, Hd', Ht, He'. simpl.
  split_and!; [|done..]. rewrite length_delete by eauto. lia.
Qed.

Lemma run_loop_counted i s s' :
  goroutines_counted s → run_loop i s = Some s' → goroutines_counted s'.
Proof.
  intros (He & Hd & Hsub). unfold run_loop.
  destruct (loops s !! i) as [w|] eqn:Hi; [|done].
  destruct (worker_run w s) as [[[] s1]|] eqn:Hrun; [| |done];
    intros [= <-];
    destruct (worker_run_frame _ _ _ _ Hrun) as (Hw & Hl & Ht & He' & Hd');
    unfold goroutines_counted; simpl; rewrite Hw, Hl, Ht, He', ?Hd'.
  - split_and!; [done| |].
    + rewrite length_delete by eauto. lia.
    + intros w' Hin. apply Hsub. by eapply list_elem_of_delete_inv.
  - done.
Qed.

Lemma wait_enqueue_counted fuel s s' :
  goroutines_counted s → wait_enqueue fuel s = Some s' →
  goroutines_counted s'.
Proof.
  revert s. induction fuel as [|fuel IH]; intros s Hc; simpl.
  - case_decide; [|done]. by intros [= <-].
  - case_decide; [by intros [= <-]|].
    destruct (run_task 0 s) as [s1|] eqn:Hrun; [|done].
    apply IH. by eapply run_task_counted.
Qed.

Lemma wait_dequeue_counted fuel s s' :
  goroutines_counted s → wait_dequeue fuel s = Some s' →
  goroutines_counted s' ∧ loops s' = [] ∧ workers s' = workers s.
Proof.
  revert s. induction fuel as [|fuel IH]; intros s Hc; simpl.
  - case_decide as Hz; [|done]. intros [= <-]. split_and!; [done| |done].
    destruct Hc as (_ & Hd & _). apply length_zero_iff_nil. lia.
  - case_decide as Hz.
    { intros [= <-]. split_and!; [done| |done].
      destruct Hc as (_ & Hd & _). apply length_zero_iff_nil. lia. }
    destruct Hc as (He & Hd & Hsub).
    destruct (loops s) as [|w ws] eqn:Hls; [done|].
    destruct (worker_run w s) as [[[] s1]|] eqn:Hrun; intros Hwait;
      apply IH in Hwait; try destruct Hwait as (Hc' & Hnil & Hw');
      try destruct (worker_run_frame _ _ _ _ Hrun)
        as (Hw & Hl & Ht & He' & Hd').
    + split_and!; [done..|]. by rewrite Hw', <- Hw.
    + unfold goroutines_counted. simpl. rewrite Hw, Ht, He', Hd', Hd.
      split_and!; [done|simpl; lia|].
      intros w' Hin. apply Hsub. by right.
    + split_and!; [done..|]. by rewrite Hw', <- Hw.
    + unfold goroutines_counted. simpl. rewrite Hw, Ht, He', Hd', Hd.
      split_and!; [done|rewrite length_app; simpl; lia|].
      intros w' Hin. apply Hsub.
      apply elem_of_app in Hin as [Hin|Hin]; [by right|].
      apply list_elem_of_singleton in Hin as ->. by left.
    + done.
    + unfold goroutines_counted. simpl. rewrite Hd.
      split_and!; [done|rewrite length_app; simpl; lia|].
      intros w' Hin. apply Hsub.
      apply elem_of_app in Hin as [Hin|Hin]; [by right|].
      apply list_elem_of_singleton in Hin as ->. by left.
Qed.

Lemma stop_all_frame ws s :
  let s' := foldl (λ s' w, worker_stop w s') s ws in
  workers s' = workers s ∧ loops s' = loops s ∧ tasks s' = tasks s ∧
  wg_enqueue s' = wg_enqueue s ∧ wg_dequeue s' = wg_dequeue s.
Proof.
  revert s. induction ws as [|w ws IH]; intros s; simpl; [done|].
  destruct (IH (worker_stop w s)) as (-> & -> & -> & -> & ->). done.
Qed.

Lemma Stop_counted fuel s s' :
  goroutines_counted s → Stop fuel s = Some s' → goroutines_counted s'.
Proof.
  intros Hc. unfold Stop.
  destruct (wait_enqueue fuel s) as [s1|] eqn:H1; [|done]. simpl.
  destruct (wait_dequeue fuel (stop_workers s1)) as [s2|] eqn:H2; [|done].
  simpl. intros [= <-].
  apply (wait_enqueue_counted _ _ _ Hc) in H1.
  apply wait_dequeue_counted in H2 as ((He & Hd & _) & Hnil & _).
  - unfold goroutines_counted. simpl. rewrite Hnil in *.
    split_and!; [done..|]. intros w Hin. by apply elem_of_nil in Hin.
  - destruct (stop_all_frame (workers s1) s1) as (Hw & Hl & Ht & He & Hd).
    fold (stop_workers s1) in Hw, Hl, Ht, He, Hd.
    unfold goroutines_counted. by rewrite Hw, Hl, Ht, He, Hd.
Qed.

Lemma launch_n_counted n name q s :
  goroutines_counted s → goroutines_counted (launch_n n name q s).
Proof.
  revert s. induction n as [|n IH]; intros s Hc; simpl; [done|].
  apply IH. destruct Hc as (He & Hd & Hsub).
  destruct (launch_spec name q s) as (Hw & Hl & Hd' & _ & Ht & He').
  unfold goroutines_counted. rewrite Hw, Hl, Hd', Ht, He', length_app.
  split_and!; [done|simpl; lia|].
  intros w Hin. apply elem_of_app. apply elem_of_app in Hin as [Hin|Hin];
    [left; by apply Hsub|by right].
Qed.

Lemma Start_range_counted l s s' :
  goroutines_counted s → Start_range l s = Return s' →
  goroutines_counted s'.
Proof.
  revert s. induction l as [|[name [q|]] l IH]; intros s Hc; simpl.
  - by intros [= <-].
  - apply IH. by apply launch_n_counted.
  - case_decide; [done|]. by apply IH.
Qed.

Lemma exec_goroutines_counted o s s' :
  goroutines_counted s → exec o s = Some s' → goroutines_counted s'.
Proof.
  intros Hc.
  destruct o as [name queue|name queueName hd|name args| |n|fuel|i|i]; simpl.
  - unfold RegisterQueue. destruct queue as [q|]; [|done].
    destruct (queues s !! name); [done|]. by intros [= <-].
  - unfold AddHandler. intros [= <-].
    destruct (queue_at s queueName); [|done].
    by destruct (handlerQueueNames s !! name).
  - unfold Trigger. intros [= <-].
    destruct (handlerQueueNames s !! name); [|done].
    destruct Hc as (He & Hd & Hsub). unfold goroutines_counted. simpl.
    rewrite length_app. simpl. split_and!; [lia|done..].
  - unfold Start. destruct (Start_range _ s) as [s1|] eqn:Hs; [|done].
    intros [= <-]. by eapply Start_range_counted.
  - by intros [= <-].
  - by apply Stop_counted.
  - by apply run_task_counted.
  - by apply run_loop_counted.
Qed.

(** The three invariants hold in every reachable state. *)
Lemma reachable_invariants s :
  reachable s →
  bound_queues_registered s ∧ queues_not_nil s ∧ goroutines_counted s.
Proof.
  intros Hr. split_and!; revert s Hr; apply reachable_invariant.
  - intros h0 name hq. simpl. by rewrite lookup_empty.
  - apply exec_bound_queues_registered.
  - intros h0 name queue. simpl. by rewrite lookup_empty.
  - apply exec_queues_not_nil.
  - intros h0. unfold goroutines_counted. simpl. split_and!; [done..|].
    intros w Hin. by apply elem_of_nil in Hin.
  - apply exec_goroutines_counted.
Qed.

(** ** No delivery, no handler call *)

Lemma count_calls_snoc f (cs : list call) c :
  count_calls f (cs ++ [c]) = (count_calls f cs + if f c then 1 else 0)%nat.
Proof.
  unfold count_calls. rewrite List.filter_app, length_app. simpl.
  by destruct (f c).
Qed.

Section NoDelivery.
Variable K : qstore → Prop.
Hypothesis K_New : ∀ q n st, K st → K (q_New q n st).2.
Hypothesis K_Enqueue : ∀ q data st, K st → K (q_Enqueue q data st).2.
Hypothesis K_Stop : ∀ q st, K st → K (q_Stop q st).
Hypothesis K_Dequeue : ∀ q st data err st',
  K st → q_Dequeue q st = Some (data, err, st') → is_Some err ∧ K st'.

Local Ltac quiet_step :=
  unfold quiet; simpl; rewrite ?count_calls_snoc; simpl;
  split; [auto|lia].

Lemma enqueue_task_quiet t s : quiet K s → quiet K (enqueue_task t s).
Proof.
  intros [HK Hn]. unfold enqueue_task, enqueue.
  destruct (encode _) as [[err|data]|v]; [quiet_step| |quiet_step].
  destruct (tk_queue t) as [q|]; [|quiet_step].
  pose proof (K_Enqueue q data _ HK) as HK'.
  destruct (q_Enqueue _ _ _) as [[[?|]|?] ?]; quiet_step.
Qed.

Lemma run_task_quiet i s s' :
  quiet K s → run_task i s = Some s' → quiet K s'.
Proof.
  intros Hq. unfold run_task. destruct (tasks s !! i) as [t|]; [|done].
  intros [= <-]. by apply enqueue_task_quiet.
Qed.

Lemma worker_run_quiet w s b s' :
  quiet K s → worker_run w s = Some (b, s') → quiet K s'.
Proof.
  intros [HK Hn]. unfold worker_run.
  destruct (q_Dequeue _ _) as [[[data err] st']|] eqn:Hd; [|done].
  destruct (K_Dequeue _ _ _ _ _ HK Hd) as [[e ->] HK'].
  case_decide; intros [= <- <-]; quiet_step.
Qed.

Lemma run_loop_quiet i s s' :
  quiet K s → run_loop i s = Some s' → quiet K s'.
Proof.
  intros Hq. unfold run_loop. destruct (loops s !! i) as [w|]; [|done].
  destruct (worker_run w s) as [[[] s1]|] eqn:Hrun; [| |done];
    intros [= <-]; by apply (worker_run_quiet _ _ _ _ Hq Hrun).
Qed.

Lemma wait_enqueue_quiet fuel s s' :
  quiet K s → wait_enqueue fuel s = Some s' → quiet K s'.
Proof.
  revert s. induction fuel as [|fuel IH]; intros s Hq; simpl.
  - case_decide; [|done]. by intros [= <-].
  - case_decide; [by intros [= <-]|].
    destruct (run_task 0 s) as [s1|] eqn:Hrun; [|done].
    apply IH. by eapply run_task_quiet.
Qed.

Lemma wait_dequeue_quiet fuel s s' :
  quiet K s → wait_dequeue fuel s = Some s' → quiet K s'.
Proof.
  revert s. induction fuel as [|fuel IH]; intros s Hq; simpl.
  - case_decide; [|done]. by intros [= <-].
  - case_decide; [by intros [= <-]|].
    destruct (loops s) as [|w ws]; [done|].
    destruct (worker_run w s) as [[[] s1]|] eqn:Hrun; apply IH;
      try apply (worker_run_quiet _ _ _ _ Hq Hrun); done.
Qed.

Lemma stop_all_quiet ws s :
  quiet K s → quiet K (foldl (λ s' w, worker_stop w s') s ws).
Proof.
  revert s. induction ws as [|w ws IH]; intros s Hq; simpl; [done|].
  apply IH. destruct Hq as [HK Hn]. quiet_step.
Qed.

Lemma launch_n_quiet n name q s : quiet K s → quiet K (launch_n n name q s).
Proof.
  revert s. induction n as [|n IH]; intros s Hq; simpl; [done|].
  apply IH. destruct Hq as [HK Hn]. unfold launch.
  pose proof (K_New q (workersPerQueue s) _ HK) as HK'.
  destruct (q_New _ _ _). quiet_step.
Qed.

Lemma Start_range_quiet l s s' :
  quiet K s → Start_range l s = Return s' → quiet K s'.
Proof.
  revert s. induction l as [|[name [q|]] l IH]; intros s Hq; simpl.
  - by intros [= <-].
  - apply IH. by apply launch_n_quiet.
  - case_decide; [done|]. by apply IH.
Qed.

Lemma exec_quiet o s s' : quiet K s → exec o s = Some s' → quiet K s'.
Proof.
  intros Hq.
  destruct o as [name queue|name queueName hd|name args| |n|fuel|i|i]; simpl.
  - unfold RegisterQueue. destruct queue as [q|]; [|done].
    destruct (queues s !! name); [done|]. by intros [= <-].
  - unfold AddHandler. intros [= <-].
    destruct (queue_at s queueName); [|done].
    by destruct (handlerQueueNames s !! name).
  - unfold Trigger. intros [= <-].
    by destruct (handlerQueueNames s !! name).
  - unfold Start. destruct (Start_range _ s) as [s1|] eqn:Hs; [|done].
    intros [= <-]. by eapply Start_range_quiet.
  - by intros [= <-].
  - unfold Stop.
    destruct (wait_enqueue fuel s) as [s1|] eqn:H1; [|done]. simpl.
    destruct (wait_dequeue fuel (stop_workers s1)) as [s2|] eqn:H2; [|done].
    simpl. intros [= <-].
    apply (wait_enqueue_quiet _ _ _ Hq) in H1.
    apply (wait_dequeue_quiet _ _ _ (stop_all_quiet _ _ H1)) in H2. done.
  - by apply run_task_quiet.
  - by apply run_loop_quiet.
Qed.

(** While the queues stay in a condition under which [Dequeue] hands out no
    item, no run of the package calls a handler. *)
Lemma run_quiet os s s' : quiet K s → run os s = Some s' → quiet K s'.
Proof.
  revert s. induction os as [|o os IH]; intros s Hq; simpl.
  - by intros [= <-].
  - destruct (exec o s) as [s1|] eqn:Hex; [|done]. simpl.
    apply IH. by eapply exec_quiet.
Qed.

End NoDelivery.

(** ** From AddHandler and Trigger to the handler *)

(** ** The record of calls is written, never read *)

Local Ltac calls_eq :=
  unfold after_calls, with_calls, ErrorHandler, log, set_heap, set_wg_enqueue,
    set_wg_dequeue, set_tasks, set_loops, set_workers, set_queues,
    set_handlerQueueNames, set_workersPerQueue;
  simpl; rewrite ?app_assoc; reflexivity.

Lemma RegisterQueue_after_calls cs name queue s :
  of_outcome (RegisterQueue name queue (after_calls cs s))
  = after_calls cs <$> of_outcome (RegisterQueue name queue s).
Proof.
  unfold RegisterQueue. destruct queue as [q|]; [|done]. simpl.
  destruct (queues s !! name); [done|]. simpl. f_equal; calls_eq.
Qed.

Lemma AddHandler_after_calls cs name queueName (hd : handler) s :
  (AddHandler name queueName hd (after_calls cs s)).2
  = after_calls cs (AddHandler name queueName hd s).2.
Proof.
  unfold AddHandler, queue_at. simpl.
  destruct (default None (queues s !! queueName)); [|done].
  destruct (handlerQueueNames s !! name); [done|]. calls_eq.
Qed.

Lemma Trigger_after_calls cs name args s :
  (Trigger name args (after_calls cs s)).2
  = after_calls cs (Trigger name args s).2.
Proof.
  unfold Trigger. simpl.
  destruct (handlerQueueNames s !! name); [|done]. calls_eq.
Qed.

Lemma launch_after_calls cs name q s :
  launch name q (after_calls cs s) = after_calls cs (launch name q s).
Proof.
  unfold launch, go_start. simpl.
  destruct (q_New q (workersPerQueue s) (heap s)) as [view h']. calls_eq.
Qed.

Lemma launch_n_after_calls cs n name q s :
  launch_n n name q (after_calls cs s) = after_calls cs (launch_n n name q s).
Proof.
  revert s. induction n as [|n IH]; intros s; simpl; [done|].
  by rewrite launch_after_calls, IH.
Qed.

Lemma Start_range_after_calls cs l s :
  of_outcome (Start_range l (after_calls cs s))
  = after_calls cs <$> of_outcome (Start_range l s).
Proof.
  revert s. induction l as [|[name [q|]] l IH]; intros s; cbn [Start_range].
  - done.
  - change (workersPerQueue (after_calls cs s)) with (workersPerQueue s).
    by rewrite launch_n_after_calls, IH.
  - change (workersPerQueue (after_calls cs s)) with (workersPerQueue s).
    destruct (decide (0 < workersPerQueue s)); [done|]. apply IH.
Qed.

Lemma enqueue_task_after_calls cs t s :
  enqueue_task t (after_calls cs s) = after_calls cs (enqueue_task t s).
Proof.
  unfold enqueue_task, enqueue.
  destruct (encode _) as [[err|data]|v]; [calls_eq| |calls_eq].
  destruct (tk_queue t) as [q|]; [|calls_eq].
  change (heap (after_calls cs s)) with (heap s).
  destruct (q_Enqueue q data (heap s)) as [[[err|]|v] h']; calls_eq.
Qed.

Lemma run_task_after_calls cs i s :
  run_task i (after_calls cs s) = after_calls cs <$> run_task i s.
Proof.
  unfold run_task. change (tasks (after_calls cs s)) with (tasks s).
  destruct (tasks s !! i) as [t|]; [|done]. simpl. f_equal.
  by rewrite <- enqueue_task_after_calls.
Qed.

Lemma worker_run_after_calls cs w s :
  worker_run w (after_calls cs s)
  = prod_map id (after_calls cs) <$> worker_run w s.
Proof.
  unfold worker_run. change (heap (after_calls cs s)) with (heap s).
  destruct (q_Dequeue _ _) as [[[data [e|]] h']|]; [| |done]; simpl.
  - destruct (decide (e = ErrDone)); simpl; do 2 f_equal; calls_eq.
  - destruct (decode data) as [e|p]; simpl; [do 2 f_equal; calls_eq|].
    destruct (handlerQueueNames s !! pld_name p) as [hq|]; simpl;
      [|do 2 f_equal; calls_eq].
    destruct (hq_handler hq _); simpl; do 2 f_equal; calls_eq.
Qed.

Lemma run_loop_after_calls cs i s :
  run_loop i (after_calls cs s) = after_calls cs <$> run_loop i s.
Proof.
  unfold run_loop. change (loops (after_calls cs s)) with (loops s).
  destruct (loops s !! i) as [w|]; [|done].
  rewrite worker_run_after_calls.
  by destruct (worker_run w s) as [[[] s1]|].
Qed.

Lemma stop_all_after_calls cs ws s :
  foldl (λ s' w, worker_stop w s') (after_calls cs s) ws
  = after_calls cs (foldl (λ s' w, worker_stop w s') s ws).
Proof.
  revert s. induction ws as [|w ws IH]; intros s; simpl; [done|].
  rewrite <- IH. f_equal; calls_eq.
Qed.

Lemma wait_enqueue_after_calls cs fuel s :
  wait_enqueue fuel (after_calls cs s) = after_calls cs <$> wait_enqueue fuel s.
Proof.
  revert s. induction fuel as [|fuel IH]; intros s; simpl.
  - by destruct (decide (wg_enqueue s = 0%nat)).
  - destruct (decide (wg_enqueue s = 0%nat)); [done|].
    rewrite run_task_after_calls.
    destruct (run_task 0 s) as [s'|]; simpl; [apply IH|done].
Qed.

Lemma wait_dequeue_after_calls cs fuel s :
  wait_dequeue fuel (after_calls cs s) = after_calls cs <$> wait_dequeue fuel s.
Proof.
  revert s. induction fuel as [|fuel IH]; intros s; simpl.
  - by destruct (decide (wg_dequeue s = 0%nat)).
  - destruct (decide (wg_dequeue s = 0%nat)); [done|].
    destruct (loops s) as [|w ws]; [done|].
    rewrite worker_run_after_calls.
    destruct (worker_run w s) as [[[] s1]|]; simpl; by rewrite <- IH.
Qed.

Lemma Stop_after_calls cs fuel s :
  Stop fuel (after_calls cs s) = after_calls cs <$> Stop fuel s.
Proof.
  unfold Stop. rewrite wait_enqueue_after_calls.
  destruct (wait_enqueue fuel s) as [s1|]; simpl; [|done].
  unfold stop_workers. change (workers (after_calls cs s1)) with (workers s1).
  rewrite stop_all_after_calls, wait_dequeue_after_calls.
  by destruct (wait_dequeue fuel _) as [s2|].
Qed.

Lemma exec_after_calls cs o s :
  exec o (after_calls cs s) = after_calls cs <$> exec o s.
Proof.
  destruct o as [name queue|name queueName hd|name args| |n|fuel|i|i]; simpl.
  - apply RegisterQueue_after_calls.
  - by rewrite AddHandler_after_calls.
  - by rewrite Trigger_after_calls.
  - apply Start_range_after_calls.
  - done.
  - apply Stop_after_calls.
  - apply run_task_after_calls.
  - apply run_loop_after_calls.
Qed.

Lemma run_after_calls cs os s :
  run os (after_calls cs s) = after_calls cs <$> run os s.
Proof.
  revert s. induction os as [|o os IH]; intros s; simpl; [done|].
  rewrite exec_after_calls.
  destruct (exec o s) as [s'|]; simpl; [apply IH|done].
Qed.

(** A goroutine that leaves all but the record of calls as it was is
    undelivered. *)
Lemma undelivered_intro cs i s :
  run_task i s = Some (with_calls (calls s ++ cs) (drop_task i s)) →
  undelivered cs i s.
Proof.
  intros Hrun. split; [exact Hrun|]. intros os.
  assert (drop_task i s
          = after_calls (calls s) (with_calls [] (drop_task i s))) as ->.
  { unfold after_calls, with_calls, drop_task. simpl.
    by rewrite app_nil_r. }
  assert (with_calls (calls s ++ cs)
            (after_calls (calls s) (with_calls [] (drop_task i s)))
          = after_calls (calls s ++ cs) (with_calls [] (drop_task i s))) as ->.
  { unfold after_calls, with_calls, drop_task. simpl.
    by rewrite app_nil_r. }
  rewrite !run_after_calls.
  destruct (run os (with_calls [] (drop_task i s))) as [r|]; simpl; [|done].
  split; [done|]. exists (calls r). split; [done|]. by rewrite <- app_assoc.
Qed.

Section RoundTrip.
Context `{CC : !CodecContract}.

(** C1, as the code has it: on a registered queue name and a fresh event
    name [AddHandler] and then [Trigger] return nil and start one goroutine
    for the payload.  When the payload encodes, that goroutine offers the
    encoded data to the bound queue in one call of [Enqueue], and a worker
    that dequeues this data, in whatever state the package has reached by
    then, invokes the registered handler once, with the arguments given to
    [Trigger].  When [encode] fails (an error or a panic), or [Enqueue]
    fails (an error or a panic) and leaves the queues as they were, the
    failure goes to [ErrorHandler] and the handler is not invoked for this
    [Trigger]: the goroutine calls nothing else, and from then on the
    package goes as it goes when the goroutine is dropped
    ([undelivered]). *)
Theorem AddHandler_Trigger_round_trip s name queueName
    (h : handler) args q :
  queues s !! queueName = Some (Some q) →
  handlerQueueNames s !! name = None →
  let t := Task (Some q) (Payload name args) in
  ∃ s1 s2,
    AddHandler name queueName h s = (None, s1) ∧
    Trigger name args s1 = (None, s2) ∧
    tasks s2 = tasks s ++ [t] ∧
    (∀ v s3 i,
       encode (Payload name args) = Return (inl v) ∨
       encode (Payload name args) = Panic v →
       tasks s3 !! i = Some t →
       undelivered [CallErrorHandler v] i s3) ∧
    ∀ data, encode (Payload name args) = Return (inr data) →
      (∀ s3, calls (enqueue_task t s3)
             = calls s3 ++ CallEnqueue q data ::
               match failure (q_Enqueue q data (heap s3)).1 with
               | None => []
               | Some err => [CallErrorHandler err]
               end) ∧
      (∀ s3 i r v,
         tasks s3 !! i = Some t →
         q_Enqueue q data (heap s3) = (r, heap s3) →
         failure r = Some v →
         undelivered [CallEnqueue q data; CallErrorHandler v] i s3) ∧
      (∀ os s3 w st',
         run os s2 = Some s3 →
         q_Dequeue (wk_queue w) (heap s3) = Some (data, None, st') →
         ∃ s4 cs,
           worker_run w s3 = Some (false, s4) ∧
           calls s4 = calls s3 ++ cs ∧
           cs = CallDequeue (wk_queue w) :: CallHandler name h args ::
                match h args with
                | None => []
                | Some err => [CallErrorHandler err]
                end ∧
           count_calls is_handler_call cs = 1%nat).
Proof.
  intros Hq Hfree t.
  eexists _, _. split.
  { unfold AddHandler, queue_at. rewrite Hq, Hfree. reflexivity. }
  split.
  { unfold Trigger, queue_at. simpl. rewrite lookup_insert_eq. simpl.
    rewrite Hq. reflexivity. }
  split; [done|]. split.
  { intros v s3 i He Hi. apply undelivered_intro.
    unfold run_task. rewrite Hi. f_equal.
    unfold enqueue_task, enqueue. simpl.
    destruct He as [He|He]; rewrite He; reflexivity. }
  intros data He. split.
  { intros s3. rewrite enqueue_task_calls. simpl. by rewrite He. }
  split.
  { intros s3 i r v Hi Henq Hf. apply undelivered_intro.
    unfold run_task. rewrite Hi. f_equal.
    unfold enqueue_task, enqueue. simpl. rewrite He. simpl.
    change (heap (set_tasks (delete i (tasks s3)) s3)) with (heap s3).
    rewrite Henq.
    destruct r as [[e|]|v0]; simpl in Hf; [| done |];
      injection Hf as ->;
      unfold with_calls, drop_task, ErrorHandler, log, set_heap,
        set_wg_enqueue, set_tasks; simpl;
      by rewrite <- app_assoc. }
  intros os s3 w st' Hrun Hd.
  assert (handlerQueueNames s3 !! name
          = Some (HandlerQueueName h queueName)) as Hb.
  { eapply run_binding_stays; [exact Hrun|]. simpl.
    apply lookup_insert_eq. }
  unfold worker_run. rewrite Hd. rewrite (decode_encode _ _ He). simpl.
  rewrite Hb. simpl.
  destruct (h args) as [err|]; eexists _, _;
    (split; [reflexivity|]); simpl; rewrite <- !app_assoc; done.
Qed.

End RoundTrip.

End EventFacts.

(** ** The in-memory queue keeps the contract *)

Lemma mem_is_done (q : nat) (st : list mem_queue) :
  @is_done mem_backend q st ↔
  st !! q = None ∨ ∃ m, st !! q = Some m ∧ mq_done m = true.
Proof.
  unfold is_done. simpl. unfold mem_Dequeue. split.
  - intros (data & st' & Hd). destruct (st !! q) as [m|]; [|by left].
    right. exists m. split; [done|].
    destruct (mq_done m); [done|]. by destruct (mq_items m).
  - intros [->|(m & -> & ->)]; eauto.
Qed.

Lemma mem_stop_done (q : nat) (st : list mem_queue) :
  @is_done mem_backend q (mem_Stop q st).
Proof.
  apply mem_is_done. unfold mem_Stop.
  rewrite list_lookup_alter. case_decide; [|congruence].
  destruct (st !! q) as [m|]; simpl; [right|by left].
  eexists. split; [reflexivity|done].
Qed.

Lemma mem_done_stop (q q' : nat) (st : list mem_queue) :
  @is_done mem_backend q st → @is_done mem_backend q (mem_Stop q' st).
Proof.
  intros Hd. apply mem_is_done in Hd. apply mem_is_done. unfold mem_Stop.
  rewrite list_lookup_alter. case_decide as Heq; [|done]. subst q'.
  destruct Hd as [->|(m & -> & Hm)]; simpl; [by left|right].
  eexists. split; [reflexivity|done].
Qed.

Lemma mem_done_dequeue (q q' : nat) (st : list mem_queue) data err st' :
  @is_done mem_backend q st → mem_Dequeue q' st = Some (data, err, st') →
  @is_done mem_backend q st'.
Proof.
  intros Hd. unfold mem_Dequeue.
  destruct (st !! q') as [m'|] eqn:Hq'; [|by intros [= _ _ <-]].
  destruct (mq_done m') eqn:Hdone; [by intros [= _ _ <-]|].
  destruct (mq_items m') as [|d rest]; [done|]. intros [= _ _ <-].
  apply mem_is_done in Hd. apply mem_is_done.
  destruct (decide (q' = q)) as [->|Hne].
  - destruct Hd as [Hd|(m & Hm & Hmd)]; congruence.
  - by rewrite list_lookup_insert_ne.
Qed.

Lemma mem_contract : @QueueContract mem_backend.
Proof.
  split.
  - exact mem_stop_done.
  - exact mem_done_stop.
  - exact mem_done_dequeue.
Qed.

(** A saturated store hands out no item, and stays saturated. *)

Lemma mem_saturated_New (q : nat) (n : Z) (st : list mem_queue) :
  mem_saturated st → mem_saturated (mem_New q n st).2.
Proof.
  intros Hs. simpl. apply Forall_alter; [done|]. by intros m _ [??].
Qed.

Lemma mem_saturated_Enqueue (q : nat) (data : string) (st : list mem_queue) :
  mem_saturated st → mem_saturated (mem_Enqueue q data st).2.
Proof.
  intros Hs. unfold mem_Enqueue. destruct (st !! q) as [m|] eqn:Hq; [|done].
  destruct (mq_done m); [done|].
  destruct (Forall_lookup_1 _ _ _ _ Hs Hq) as [Hi Hc].
  case_decide as Hlt; [|done]. rewrite Hi, Hc in Hlt. simpl in Hlt. lia.
Qed.

Lemma mem_saturated_Stop (q : nat) (st : list mem_queue) :
  mem_saturated st → mem_saturated (mem_Stop q st).
Proof.
  intros Hs. apply Forall_alter; [done|]. by intros m _ [??].
Qed.

Lemma mem_saturated_Dequeue (q : nat) (st : list mem_queue) data err st' :
  mem_saturated st → mem_Dequeue q st = Some (data, err, st') →
  is_Some err ∧ mem_saturated st'.
Proof.
  intros Hs. unfold mem_Dequeue.
  destruct (st !! q) as [m|] eqn:Hq; [|intros [= _ <- <-]; eauto].
  destruct (mq_done m); [intros [= _ <- <-]; eauto|].
  by destruct (Forall_lookup_1 _ _ _ _ Hs Hq) as [-> _].
Qed.

(** ** The wire format round-trips *)

#[local] Arguments String.append !_ _ / : simpl nomatch.

Lemma append_assoc (a b c : string) : (a +:+ b) +:+ c = a +:+ (b +:+ c).
Proof. induction a as [|x a IH]; simpl; [done|]. by rewrite IH. Qed.

Lemma append_nil_r (a : string) : a +:+ EmptyString = a.
Proof. induction a as [|x a IH]; simpl; [done|]. by rewrite IH. Qed.

Lemma dec_enc_pos p r : dec_pos (enc_pos p +:+ r) = Some (p, r).
Proof. induction p as [p IH|p IH|]; simpl; [by rewrite IH..|done]. Qed.

Lemma dec_enc_N n r : dec_N (enc_N n +:+ r) = Some (n, r).
Proof. destruct n as [|p]; simpl; [done|]. by rewrite dec_enc_pos. Qed.

Lemma dec_enc_Z n r : dec_Z (enc_Z n +:+ r) = Some (n, r).
Proof. destruct n as [|p|p]; simpl; [done|by rewrite dec_enc_pos..]. Qed.

Lemma split_at_append a r : split_at (String.length a) (a +:+ r) = Some (a, r).
Proof. induction a as [|x a IH]; simpl; [done|]. by rewrite IH. Qed.

Lemma dec_enc_str a r : dec_str (enc_str a +:+ r) = Some (a, r).
Proof.
  unfold dec_str, enc_str. rewrite append_assoc, dec_enc_N, Nat2N.id.
  apply split_at_append.
Qed.

Lemma dec_enc_value v a r :
  enc_value v = Some a → dec_value (a +:+ r) = Some (v, r).
Proof.
  destruct v as [|[]|n|x|id]; simpl; intros [= <-]; simpl; try done.
  - by rewrite dec_enc_Z.
  - by rewrite dec_enc_str.
Qed.

Lemma dec_enc_values vs b r :
  enc_values vs = Some b → dec_values (length vs) (b +:+ r) = Some (vs, r).
Proof.
  revert b. induction vs as [|v vs IH]; intros b; simpl.
  - by intros [= <-].
  - destruct (enc_value v) as [a|] eqn:Ha; [|done].
    destruct (enc_values vs) as [b'|]; [|done]. intros [= <-].
    rewrite append_assoc, (dec_enc_value _ _ _ Ha). by rewrite (IH b').
Qed.

Lemma wire_contract : @CodecContract wire_codec.
Proof.
  intros [name args] data. simpl. unfold wire_encode, wire_decode. simpl.
  destruct (enc_values args) as [body|] eqn:Hb; [|done]. intros [= <-].
  rewrite dec_enc_str, dec_enc_N, Nat2N.id.
  pose proof (dec_enc_values _ _ EmptyString Hb) as Hv.
  rewrite append_nil_r in Hv. by rewrite Hv.
Qed.

(** * The properties on the small application *)

Section Examples.
#[local] Existing Instances mem_backend wire_codec mem_contract wire_contract.

Lemma ex_reachable (cap : nat) os s :
  run os (ex_init cap) = Some s → reachable s.
Proof. intros Hrun. by exists [MemQueue [] cap false], os. Qed.

Lemma Trigger_unbound_witness :
  handlerQueueNames (ex_registered 4) !! "log.error" = None ∧
  ∃ err,
    Trigger "log.error" [VStr "boom"] (ex_registered 4)
    = (Some err, ex_registered 4) ∧
    tasks (Trigger "log.error" [VStr "boom"] (ex_registered 4)).2
    = tasks (ex_registered 4) ∧
    count_calls is_enqueue
      (calls (Trigger "log.error" [VStr "boom"] (ex_registered 4)).2)
    = count_calls is_enqueue (calls (ex_registered 4)).
Proof.
  split; [reflexivity|]. apply Trigger_unbound. reflexivity.
Defined.

Lemma RegisterQueue_spec_witness :
  (∃ v, RegisterQueue "mem" None (ex_init 4) = Panic v) ∧
  (∃ v, RegisterQueue "mem" (Some 1%nat) (ex_registered 4) = Panic v) ∧
  RegisterQueue "mem" (Some 0%nat) (ex_init 4)
  = Return (set_queues (<["mem" := Some 0%nat]> (queues (ex_init 4)))
              (ex_init 4)).
Proof.
  split; [|split].
  - destruct (RegisterQueue_spec (ex_init 4) "mem" None) as (Hnil & _ & _).
    apply Hnil. reflexivity.
  - destruct (RegisterQueue_spec (ex_registered 4) "mem" (Some 1%nat))
      as (_ & Htwice & _).
    apply Htwice. exists (Some 0%nat). reflexivity.
  - destruct (RegisterQueue_spec (ex_init 4) "mem" (Some 0%nat))
      as (_ & _ & Hfresh).
    apply Hfresh; reflexivity.
Defined.

Lemma AddHandler_spec_witness :
  (∃ err, AddHandler "log.error" "mem" h_ok (ex_init 4)
          = (Some err, ex_init 4)) ∧
  (∃ err, AddHandler "log.error" "mem" h_fail (ex_bound 4)
          = (Some err, ex_bound 4)) ∧
  AddHandler "log.error" "mem" h_ok (ex_registered 4)
  = (None, set_handlerQueueNames
             (<["log.error" := HandlerQueueName h_ok "mem"]>
                (handlerQueueNames (ex_registered 4)))
             (ex_registered 4)).
Proof.
  split; [|split].
  - destruct (AddHandler_spec (ex_init 4) "log.error" "mem" h_ok)
      as (Hqueue & _ & _).
    apply Hqueue. reflexivity.
  - destruct (AddHandler_spec (ex_bound 4) "log.error" "mem" h_fail)
      as (_ & Htwice & _).
    apply Htwice. exists (HandlerQueueName h_ok "mem"). reflexivity.
  - destruct (AddHandler_spec (ex_registered 4) "log.error" "mem" h_ok)
      as (_ & _ & Hfresh).
    apply Hfresh.
    + apply reachable_invariants.
      apply (ex_reachable 4 [@OpRegisterQueue mem_backend "mem" (Some 0%nat)]).
      reflexivity.
    + exists (Some 0%nat). reflexivity.
    + reflexivity.
Defined.

Lemma ex_bound_reachable (cap : nat) : reachable (ex_bound cap).
Proof.
  apply (ex_reachable cap
           [@OpRegisterQueue mem_backend "mem" (Some 0%nat);
            OpAddHandler "log.error" "mem" h_ok]).
  vm_compute. reflexivity.
Qed.

Lemma ex_triggered_reachable (cap : nat) : reachable (ex_triggered cap).
Proof.
  apply (ex_reachable cap
           [@OpRegisterQueue mem_backend "mem" (Some 0%nat);
            OpAddHandler "log.error" "mem" h_ok;
            OpTrigger "log.error" [VStr "boom"]]).
  vm_compute. reflexivity.
Qed.

Lemma ex_started_reachable (cap : nat) : reachable (ex_started cap).
Proof.
  apply (ex_reachable cap
           [@OpRegisterQueue mem_backend "mem" (Some 0%nat);
            OpAddHandler "log.error" "mem" h_ok;
            OpTrigger "log.error" [VStr "boom"];
            OpStart]).
  vm_compute. reflexivity.
Qed.

Lemma ex_stopped_reachable : reachable (ex_stopped 4).
Proof.
  apply (ex_reachable 4
           [@OpRegisterQueue mem_backend "mem" (Some 0%nat);
            OpAddHandler "log.error" "mem" h_ok;
            OpTrigger "log.error" [VStr "boom"];
            OpStart;
            OpStop 1]).
  vm_compute. reflexivity.
Qed.

(** On a saturated queue the goroutine of [Trigger] reports the error of
    [Enqueue].  On a queue that was stopped, a state the package reaches by
    [Start] and [Stop], [Enqueue] panics: the goroutine recovers the panic
    and reports its value.  [Trigger] itself had returned nil both times. *)
Lemma Trigger_bound_witness :
  handlerQueueNames (ex_bound 0) !! "log.error"
  = Some (HandlerQueueName h_ok "mem") ∧
  (∃ s', Trigger "log.error" [VStr "boom"] (ex_bound 0) = (None, s') ∧
         tasks s' = [Task (Some 0%nat) (Payload "log.error" [VStr "boom"])] ∧
         calls s' = []) ∧
  calls (enqueue_task (Task (Some 0%nat) (Payload "log.error" [VStr "boom"]))
           (ex_started 0))
  = [CallNew 0%nat 1; CallEnqueue 0%nat "p100.log.errorp.Sp00.boom";
     CallErrorHandler (Errorf "queue is full")] ∧
  reachable (ex_stopped 4) ∧
  handlerQueueNames (ex_stopped 4) !! "log.error"
  = Some (HandlerQueueName h_ok "mem") ∧
  (∃ s', Trigger "log.error" [VStr "bang"] (ex_stopped 4) = (None, s') ∧
         tasks s' = [Task (Some 0%nat) (Payload "log.error" [VStr "bang"])] ∧
         calls s' = calls (ex_stopped 4)) ∧
  q_Enqueue 0%nat "p100.log.errorp.Sp00.bang" (heap (ex_stopped 4))
  = (Panic send_on_closed, heap (ex_stopped 4)) ∧
  run_task 0 (after [OpTrigger "log.error" [VStr "bang"]] (ex_stopped 4))
  = Some (enqueue_task
            (Task (Some 0%nat) (Payload "log.error" [VStr "bang"]))
            (set_tasks [] (after [OpTrigger "log.error" [VStr "bang"]]
                             (ex_stopped 4)))) ∧
  calls (enqueue_task
           (Task (Some 0%nat) (Payload "log.error" [VStr "bang"]))
           (set_tasks [] (after [OpTrigger "log.error" [VStr "bang"]]
                            (ex_stopped 4))))
  = calls (ex_stopped 4)
    ++ [CallEnqueue 0%nat "p100.log.errorp.Sp00.bang";
        CallErrorHandler send_on_closed].
Proof.
  destruct (Trigger_bound (ex_bound 0) "log.error" [VStr "boom"]
              (HandlerQueueName h_ok "mem") eq_refl) as [Hnil Hasync].
  split; [reflexivity|]. split; [exact Hnil|].
  split.
  { destruct (Hasync (ex_started 0)) as (_ & _ & Henq & _).
    apply (Henq "p100.log.errorp.Sp00.boom" 0%nat (Errorf "queue is full")
             [MemQueue [] 0 false]); reflexivity. }
  split; [apply ex_stopped_reachable|].
  assert (Hb : handlerQueueNames (ex_stopped 4) !! "log.error"
               = Some (HandlerQueueName h_ok "mem")) by (vm_compute; reflexivity).
  assert (Hp : q_Enqueue 0%nat "p100.log.errorp.Sp00.bang" (heap (ex_stopped 4))
               = (Panic send_on_closed, heap (ex_stopped 4)))
    by (vm_compute; reflexivity).
  split; [exact Hb|].
  destruct (Trigger_bound (ex_stopped 4) "log.error" [VStr "bang"]
              (HandlerQueueName h_ok "mem") Hb) as [Hnil' Hasync'].
  split; [exact Hnil'|]. split; [exact Hp|].
  split; [vm_compute; reflexivity|].
  pose (s0 := set_tasks [] (after [OpTrigger "log.error" [VStr "bang"]]
                              (ex_stopped 4))).
  assert (Hc : calls s0 = calls (ex_stopped 4)) by (vm_compute; reflexivity).
  assert (Hp0 : q_Enqueue 0%nat "p100.log.errorp.Sp00.bang" (heap s0)
                = (Panic send_on_closed, heap (ex_stopped 4)))
    by (vm_compute; reflexivity).
  fold s0. rewrite <- Hc.
  destruct (Hasync' s0) as (_ & _ & _ & Hpanic & _).
  apply (Hpanic "p100.log.errorp.Sp00.bang" 0%nat send_on_closed
           (heap (ex_stopped 4))); [reflexivity|reflexivity|exact Hp0].
Defined.

Lemma Trigger_one_enqueue_attempt_witness :
  bound_queues_registered (ex_bound 4) ∧
  Trigger "log.error" [VStr "boom"] (ex_bound 4) = (None, ex_triggered 4) ∧
  ∃ s1 cs,
    run_task 0 (ex_started 4) = Some s1 ∧
    tasks s1 = [] ∧
    calls s1 = calls (ex_started 4) ++ cs ∧
    count_calls is_enqueue cs = 1%nat.
Proof.
  assert (Hinv : bound_queues_registered (ex_bound 4))
    by apply reachable_invariants, ex_bound_reachable.
  split; [exact Hinv|]. split; [reflexivity|].
  destruct (Trigger_one_enqueue_attempt (ex_bound 4) "log.error"
              [VStr "boom"] (ex_triggered 4) Hinv eq_refl)
    as (hq & q & Hb & Hq & _ & _ & _ & Hrun).
  assert (q = 0%nat) as ->.
  { injection Hb as <-. by injection Hq as <-. }
  destruct (Hrun (ex_started 4) 0%nat eq_refl)
    as (s1 & cs & Hs1 & Ht & Hc & Hcount).
  exists s1, cs. split_and!; [done..|]. apply Hcount.
Defined.

Lemma ex_two_queues_reachable : reachable ex_two_queues.
Proof.
  exists [MemQueue [] 4 false; MemQueue [] 4 false],
         [@OpRegisterQueue mem_backend "mem" (Some 0%nat);
          @OpRegisterQueue mem_backend "file" (Some 1%nat);
          OpSetWorkersPerQueue 3].
  vm_compute. reflexivity.
Qed.

(** Two queues and three workers per queue: six workers, six calls of
    [New(3)], six live loops. *)
Lemma Start_spec_witness :
  queues_not_nil ex_two_queues ∧
  workersPerQueue ex_two_queues = 3 ∧
  size (queues ex_two_queues) = 2%nat ∧
  ∃ s' ws cs,
    Start ex_two_queues = Return s' ∧
    workers s' = ws ∧ loops s' = ws ∧ calls s' = cs ∧
    length ws = 6%nat ∧
    Forall2 (launched_from (queues ex_two_queues) 3) ws cs.
Proof.
  assert (Hnn : queues_not_nil ex_two_queues)
    by apply reachable_invariants, ex_two_queues_reachable.
  split; [exact Hnn|]. split; [reflexivity|]. split; [reflexivity|].
  destruct (Start_spec ex_two_queues Hnn)
    as (s' & ws & cs & Hs & Hw & Hl & _ & Hc & Hall & Hlen & _).
  exists s', ws, cs. split_and!; [exact Hs|exact Hw|exact Hl|exact Hc| |].
  - rewrite Hlen. reflexivity.
  - exact Hall.
Defined.

Lemma Stop_spec_witness :
  goroutines_counted (ex_started 4) ∧
  (length (tasks (ex_started 4)) ≤ 1)%nat ∧
  (length (loops (ex_started 4)) ≤ 1)%nat ∧
  ∃ s',
    Stop 1 (ex_started 4) = Some s' ∧
    workers s' = [] ∧
    calls s'
    = [CallNew 0%nat 1; CallEnqueue 0%nat "p100.log.errorp.Sp00.boom";
       CallStop 0%nat; CallDequeue 0%nat] ∧
    ∃ s'' ws, Start s' = Return s'' ∧ workers s'' = ws ∧ length ws = 1%nat.
Proof.
  assert (Hc : goroutines_counted (ex_started 4))
    by apply reachable_invariants, ex_started_reachable.
  assert (Hnn : queues_not_nil (ex_started 4))
    by apply reachable_invariants, ex_started_reachable.
  assert (Ht : (length (tasks (ex_started 4)) ≤ 1)%nat) by (vm_compute; lia).
  assert (Hl : (length (loops (ex_started 4)) ≤ 1)%nat) by (vm_compute; lia).
  split_and!; [done..|].
  destruct (Stop_spec (ex_started 4) 1 Hc Ht Hl)
    as (s1 & s2 & s' & enq & _ & _ & _ & _ & _ & _ & _ & _ & _ & _ & _ & _
        & Hstop & _ & Hw & _ & _ & Hstart).
  exists s'. split; [exact Hstop|]. split; [exact Hw|].
  vm_compute in Hstop. injection Hstop as <-. split; [reflexivity|].
  destruct (Hstart Hnn) as (s'' & ws & Hs & Hws & _ & _ & Hlen).
  exists s'', ws. split_and!; [done..|]. exact Hlen.
Defined.


Lemma bound_queues_registered_invariant_witness :
  bound_queues_registered (ex_registered 4) ∧
  exec (OpAddHandler "log.error" "mem" h_ok) (ex_registered 4)
  = Some (ex_bound 4) ∧
  bound_queues_registered (ex_bound 4) ∧
  ∃ q, queue_at (ex_bound 4) "mem" = Some q ∧
       tasks (Trigger "log.error" [VStr "boom"] (ex_bound 4)).2
       = tasks (ex_bound 4)
         ++ [Task (Some q) (Payload "log.error" [VStr "boom"])].
Proof.
  destruct bound_queues_registered_invariant
    as (Hinit & Hstep & _ & Htrigger).
  assert (H0 : bound_queues_registered (ex_registered 4)).
  { apply (Hstep (@OpRegisterQueue mem_backend "mem" (Some 0%nat))
             (ex_init 4)); [apply Hinit|reflexivity]. }
  assert (H1 : bound_queues_registered (ex_bound 4)).
  { apply (Hstep (OpAddHandler "log.error" "mem" h_ok) (ex_registered 4));
      [exact H0|reflexivity]. }
  split_and!; [exact H0|reflexivity|exact H1|].
  apply (Htrigger (ex_bound 4) "log.error" [VStr "boom"]
           (HandlerQueueName h_ok "mem") H1). reflexivity.
Defined.

(** The scenario of the specification: "mem" is registered, "log.error" is
    bound to it, [Trigger("log.error", "boom")] is called and the workers are
    started; the worker that dequeues the item calls the handler once, with
    "boom".  On a queue without room, and with an argument that does not
    encode, the event is undelivered. *)
Lemma AddHandler_Trigger_round_trip_witness :
  queues (ex_registered 4) !! "mem" = Some (Some 0%nat) ∧
  handlerQueueNames (ex_registered 4) !! "log.error" = None ∧
  (∃ s4,
    worker_run (@Worker mem_backend "mem" 0%nat)
      (after [OpStart; OpRunTask 0] (ex_triggered 4))
    = Some (false, s4) ∧
    calls s4
    = calls (after [OpStart; OpRunTask 0] (ex_triggered 4))
      ++ [CallDequeue 0%nat; CallHandler "log.error" h_ok [VStr "boom"]]) ∧
  undelivered [CallEnqueue 0%nat "p100.log.errorp.Sp00.boom";
               CallErrorHandler (Errorf "queue is full")] 0 (ex_triggered 0) ∧
  undelivered [CallErrorHandler (Errorf "event: unsupported argument type")]
    0 ex_unencodable.
Proof.
  split; [reflexivity|]. split; [reflexivity|]. split; [|split].
  - destruct (AddHandler_Trigger_round_trip (ex_registered 4) "log.error"
                "mem" h_ok [VStr "boom"] 0%nat eq_refl eq_refl)
      as (s1 & s2 & Hadd & Htrig & _ & _ & Hdata).
    vm_compute in Hadd. injection Hadd as <-.
    vm_compute in Htrig. injection Htrig as <-.
    destruct (Hdata "p100.log.errorp.Sp00.boom" eq_refl) as (_ & _ & Hworker).
    destruct (Hworker [OpStart; OpRunTask 0]
                (after [OpStart; OpRunTask 0] (ex_triggered 4))
                (@Worker mem_backend "mem" 0%nat) [MemQueue [] 4 false])
      as (s4 & cs & Hrun & Hcalls & Hcs & _).
    + vm_compute. reflexivity.
    + vm_compute. reflexivity.
    + exists s4. split; [exact Hrun|]. rewrite Hcalls, Hcs. reflexivity.
  - destruct (AddHandler_Trigger_round_trip (ex_registered 0) "log.error"
                "mem" h_ok [VStr "boom"] 0%nat eq_refl eq_refl)
      as (s1 & s2 & _ & _ & _ & _ & Hdata).
    destruct (Hdata "p100.log.errorp.Sp00.boom" eq_refl) as (_ & Hfail & _).
    apply (Hfail (ex_triggered 0) 0%nat
             (Return (Some (Errorf "queue is full")))); reflexivity.
  - destruct (AddHandler_Trigger_round_trip (ex_registered 4) "log.error"
                "mem" h_ok [VChan 7] 0%nat eq_refl eq_refl)
      as (s1 & s2 & _ & _ & _ & Hfail & _).
    apply (Hfail (Errorf "event: unsupported argument type") ex_unencodable
             0%nat); [left|]; reflexivity.
Defined.

(** With a saturated queue no run calls a handler, whatever is registered,
    bound, triggered and scheduled. *)
Lemma saturated_never_handles os s' :
  run os (ex_init 0) = Some s' →
  count_calls is_handler_call (calls s') = 0%nat.
Proof.
  intros Hrun.
  apply (run_quiet (QB := mem_backend) mem_saturated
           mem_saturated_New mem_saturated_Enqueue mem_saturated_Stop
           mem_saturated_Dequeue os (ex_init 0) s'); [|exact Hrun].
  split; [|reflexivity]. by repeat constructor.
Qed.

(** C1 does not hold as stated.  On a queue that is saturated [AddHandler]
    and [Trigger] return nil, but [Enqueue] returns an error, which goes to
    [ErrorHandler]: in the run below every goroutine has come to its end and
    the handler was not called, and no other run calls it either.  An
    argument that cannot be serialised is reported the same way, on a queue
    that has room. *)
Lemma AddHandler_Trigger_counterexample :
  queues (ex_registered 0) !! "mem" = Some (Some 0%nat) ∧
  handlerQueueNames (ex_registered 0) !! "log.error" = None ∧
  (AddHandler "log.error" "mem" h_ok (ex_registered 0)).1 = None ∧
  (Trigger "log.error" [VStr "boom"] (ex_bound 0)).1 = None ∧
  calls <$> run [OpAddHandler "log.error" "mem" h_ok;
                 OpTrigger "log.error" [VStr "boom"];
                 OpStart; OpRunTask 0; OpStop 1] (ex_registered 0)
  = Some [CallNew 0%nat 1;
          CallEnqueue 0%nat "p100.log.errorp.Sp00.boom";
          CallErrorHandler (Errorf "queue is full");
          CallStop 0%nat; CallDequeue 0%nat] ∧
  count_calls is_handler_call
    [CallNew 0%nat 1;
     CallEnqueue 0%nat "p100.log.errorp.Sp00.boom";
     CallErrorHandler (Errorf "queue is full");
     CallStop 0%nat; CallDequeue 0%nat] ≠ 1%nat ∧
  (∀ os s', run os (ex_triggered 0) = Some s' →
     count_calls is_handler_call (calls s') ≠ 1%nat) ∧
  (Trigger "log.error" [VChan 7] (ex_bound 4)).1 = None ∧
  calls <$> run [OpAddHandler "log.error" "mem" h_ok;
                 OpTrigger "log.error" [VChan 7];
                 OpStart; OpRunTask 0; OpStop 1] (ex_registered 4)
  = Some [CallNew 0%nat 1;
          CallErrorHandler (Errorf "event: unsupported argument type");
          CallStop 0%nat; CallDequeue 0%nat].
Proof.
  split_and!.
  - vm_compute. reflexivity.
  - vm_compute. reflexivity.
  - vm_compute. reflexivity.
  - vm_compute. reflexivity.
  - vm_compute. reflexivity.
  - vm_compute. discriminate.
  - intros os s' Hrun.
    rewrite (saturated_never_handles
               ([@OpRegisterQueue mem_backend "mem" (Some 0%nat);
                 OpAddHandler "log.error" "mem" h_ok;
                 OpTrigger "log.error" [VStr "boom"]] ++ os) s');
      [discriminate|].
    exact Hrun.
  - vm_compute. reflexivity.
  - vm_compute. reflexivity.
Qed.

End Examples.

(** * More on the package *)

Section EventMore.
Context `{QB : QueueBackend} `{CD : Codec}.

Implicit Types (s : State) (name queueName : string) (args : list value)
  (queue : Queue) (w : worker) (t : task).

(** ** The number of workers per queue *)

Lemma exec_workersPerQueue o s s' :
  1 ≤ workersPerQueue s → exec o s = Some s' → 1 ≤ workersPerQueue s'.
Proof.
  intros Hk.
  destruct o as [name queue|name queueName hd|name args| |n|fuel|i|i]; simpl.
  - unfold RegisterQueue. destruct queue as [q|]; [|done].
    destruct (queues s !! name); [done|]. by intros [= <-].
  - unfold AddHandler. intros [= <-].
    destruct (queue_at s queueName); [|done].
    by destruct (handlerQueueNames s !! name).
  - unfold Trigger. intros [= <-].
    by destruct (handlerQueueNames s !! name).
  - unfold Start. destruct (Start_range _ s) as [s1|] eqn:Hs; [|done].
    intros [= <-]. apply Start_range_registries in Hs as (_ & _ & ->). done.
  - intros [= <-]. unfold SetWorkersPerQueue. simpl. case_decide; lia.
  - intros Hs. apply Stop_registries in Hs as (_ & _ & ->). done.
  - intros Hs. apply run_task_registries in Hs as (_ & _ & ->). done.
  - intros Hs. apply run_loop_registries in Hs as (_ & _ & ->). done.
Qed.

Lemma reachable_workersPerQueue s : reachable s → 1 ≤ workersPerQueue s.
Proof.
  revert s. apply reachable_invariant; [intros h0; simpl; lia|].
  intros o s s'. apply exec_workersPerQueue.
Qed.

(** X1: [SetWorkersPerQueue(n)] stores [n], or 1 when [n] is below 1, and
    changes nothing else; as the variable starts at 1 and nothing else writes
    it, the number of workers per queue is at least 1 in every reachable
    state. *)
Theorem workersPerQueue_at_least_one :
  (∀ n s, workersPerQueue (SetWorkersPerQueue n s) = Z.max 1 n ∧
          SetWorkersPerQueue n s = set_workersPerQueue (Z.max 1 n) s) ∧
  (∀ s, reachable s → 1 ≤ workersPerQueue s).
Proof.
  split.
  - intros n s. unfold SetWorkersPerQueue. simpl.
    case_decide; [rewrite Z.max_l by lia|rewrite Z.max_r by lia]; done.
  - apply reachable_workersPerQueue.
Qed.






(** ** The registries only grow *)

Lemma exec_queue_stays o s s' name queue :
  exec o s = Some s' → queues s !! name = Some queue →
  queues s' !! name = Some queue.
Proof.
  intros Hex Hq.
  destruct (exec_registries _ _ _ Hex)
    as [[_ [->|(name' & q & Hfree & ->)]]|[-> _]]; [done| |done].
  rewrite lookup_insert_ne; [done|]. intros ->. congruence.
Qed.

(** X3: no operation removes or replaces an entry of a registry: along any
    run a queue stays registered under its name, and an event name stays
    bound to the handler and the queue name it was first bound to. *)
Theorem registries_only_grow os s s' :
  run os s = Some s' →
  (∀ name queue, queues s !! name = Some queue →
     queues s' !! name = Some queue) ∧
  (∀ name hq, handlerQueueNames s !! name = Some hq →
     handlerQueueNames s' !! name = Some hq).
Proof.
  revert s. induction os as [|o os IH]; intros s; simpl.
  - intros [= <-]. done.
  - destruct (exec o s) as [s1|] eqn:Hex; [|done]. simpl. intros Hrun.
    destruct (IH _ Hrun) as [Hq Hb]. split.
    + intros name queue Hin. apply Hq. by eapply exec_queue_stays.
    + intros name hq Hin. apply Hb. by eapply exec_binding_stays.
Qed.

(** ** The counter of pending enqueues *)

(** X4: in every reachable state [wg.enqueue] counts the goroutines of
    [Trigger] that have yet to run.  So the [Done()] of a goroutine finds the
    counter positive and lowers it by one, and when the [Wait()] of [Stop]
    returns no such goroutine is pending. *)
Theorem enqueue_counter_counts s :
  reachable s →
  wg_enqueue s = length (tasks s) ∧
  (∀ i s1, run_task i s = Some s1 →
     wg_enqueue s = S (wg_enqueue s1) ∧ wg_enqueue s1 = length (tasks s1)) ∧
  (∀ fuel s1, wait_enqueue fuel s = Some s1 → tasks s1 = []).
Proof.
  intros Hr. destruct (reachable_invariants s Hr) as (_ & _ & Hc).
  split; [apply Hc|]. split.
  - intros i s1 Hrun.
    destruct (run_task_counted _ _ _ Hc Hrun) as (He1 & _).
    split; [|done]. destruct Hc as (He & _).
    unfold run_task in Hrun.
    destruct (tasks s !! i) as [t|] eqn:Hi; [|done]. injection Hrun as <-.
    destruct (enqueue_task_frame t (set_tasks (delete i (tasks s)) s))
      as (_ & _ & _ & _ & ->). simpl.
    apply lookup_lt_Some in Hi. lia.
  - intros fuel s1 Hwait.
    destruct (wait_enqueue_counted _ _ _ Hc Hwait) as (He1 & _).
    apply length_zero_iff_nil. rewrite <- He1. clear -Hwait.
    revert s Hwait. induction fuel as [|fuel IH]; intros s; simpl.
    + case_decide; [|done]. by intros [= <-].
    + case_decide; [by intros [= <-]|].
      destruct (run_task 0 s) as [s2|]; [|done]. apply IH.
Qed.

(** ** Stop when nothing runs *)

Lemma wait_enqueue_done fuel s s1 :
  wait_enqueue fuel s = Some s1 → wg_enqueue s1 = 0%nat.
Proof.
  revert s. induction fuel as [|fuel IH]; intros s; simpl.
  - case_decide; [|done]. by intros [= <-].
  - case_decide; [by intros [= <-]|].
    destruct (run_task 0 s) as [s2|]; [|done]. apply IH.
Qed.

Lemma wait_dequeue_done fuel s s2 :
  wait_dequeue fuel s = Some s2 →
  wg_dequeue s2 = 0%nat ∧ wg_enqueue s2 = wg_enqueue s.
Proof.
  revert s. induction fuel as [|fuel IH]; intros s; simpl.
  - case_decide; [|done]. by intros [= <-].
  - case_decide; [by intros [= <-]|].
    destruct (loops s) as [|w ws]; [done|].
    destruct (worker_run w s) as [[[] s1]|] eqn:Hrun; intros Hwait;
      apply IH in Hwait as [Hd He]; simpl in He;
      try destruct (worker_run_frame _ _ _ _ Hrun) as (_ & _ & _ & He' & _);
      split; congruence.
Qed.

Lemma Stop_idle fuel s : idle s → Stop fuel s = Some s.
Proof.
  intros (He & Hd & Hw). unfold Stop.
  assert (wait_enqueue fuel s = Some s) as ->.
  { destruct fuel; simpl; by rewrite decide_True. }
  simpl. unfold stop_workers. rewrite Hw. simpl.
  assert (wait_dequeue fuel s = Some s) as ->.
  { destruct fuel; simpl; by rewrite decide_True. }
  simpl. f_equal. destruct s. simpl in *. by subst.
Qed.

(** X5: [Stop] on a package where nothing runs (both counters zero, no
    worker: before any [Start], or after a [Stop]) returns at once, whatever
    the fuel, and leaves the state as it is, calling nothing.  A [Stop] that
    returns leaves such a state, so a second [Stop] changes nothing. *)
Theorem Stop_idempotent s fuel :
  (idle s → Stop fuel s = Some s) ∧
  (∀ s', Stop fuel s = Some s' →
     idle s' ∧ ∀ fuel', Stop fuel' s' = Some s').
Proof.
  split; [apply Stop_idle|]. intros s' Hstop.
  assert (idle s') as Hidle.
  { unfold Stop in Hstop.
    destruct (wait_enqueue fuel s) as [s1|] eqn:H1; [|done]. simpl in Hstop.
    destruct (wait_dequeue fuel (stop_workers s1)) as [s2|] eqn:H2; [|done].
    simpl in Hstop. injection Hstop as <-.
    apply wait_enqueue_done in H1. apply wait_dequeue_done in H2 as [Hd He].
    destruct (stop_all_frame (workers s1) s1) as (_ & _ & _ & He' & _).
    fold (stop_workers s1) in He'.
    unfold idle. simpl. split_and!; [congruence|done..]. }
  split; [done|]. intros fuel'. by apply Stop_idle.
Qed.

(** ** One call of Enqueue for one Trigger, at most *)

Lemma count_calls_app f (cs cs' : list call) :
  count_calls f (cs ++ cs') = (count_calls f cs + count_calls f cs')%nat.
Proof. unfold count_calls. by rewrite List.filter_app, length_app. Qed.

Lemma enqueue_task_account t s :
  (count_calls is_enqueue (calls (enqueue_task t s))
   ≤ S (count_calls is_enqueue (calls s)))%nat.
Proof.
  rewrite enqueue_task_calls, count_calls_app.
  destruct (encode _) as [[err|data]|v];
    [unfold count_calls; simpl; lia| |unfold count_calls; simpl; lia].
  destruct (tk_queue t) as [q|]; [|unfold count_calls; simpl; lia].
  destruct (failure (q_Enqueue _ _ _).1); unfold count_calls; simpl; lia.
Qed.

Lemma run_task_account i s s' :
  run_task i s = Some s' → (enqueue_account s' ≤ enqueue_account s)%nat.
Proof.
  unfold run_task. destruct (tasks s !! i) as [t|] eqn:Hi; [|done].
  intros [= <-]. unfold enqueue_account.
  pose proof (enqueue_task_account t (set_tasks (delete i (tasks s)) s)) as Hc.
  destruct (enqueue_task_frame t (set_tasks (delete i (tasks s)) s))
    as (_ & _ & _ & -> & _).
  simpl in *. rewrite length_delete by eauto.
  apply lookup_lt_Some in Hi. lia.
Qed.

Lemma worker_run_account w s b s' :
  worker_run w s = Some (b, s') → enqueue_account s' = enqueue_account s.
Proof.
  unfold worker_run, enqueue_account.
  destruct (q_Dequeue _ _) as [[[data [e|]] st']|]; [| |done].
  - case_decide; intros [= <- <-]; simpl;
      rewrite ?count_calls_snoc; simpl; lia.
  - destruct (decode data) as [e|p];
      [intros [= <- <-]; simpl; rewrite ?count_calls_snoc; simpl; lia|].
    simpl. destruct (handlerQueueNames s !! pld_name p) as [hq|];
      [|intros [= <- <-]; simpl; rewrite ?count_calls_snoc; simpl; lia].
    destruct (hq_handler hq _); intros [= <- <-]; simpl;
      rewrite ?count_calls_snoc; simpl; lia.
Qed.

Lemma wait_enqueue_account fuel s s' :
  wait_enqueue fuel s = Some s' → (enqueue_account s' ≤ enqueue_account s)%nat.
Proof.
  revert s. induction fuel as [|fuel IH]; intros s; simpl.
  - case_decide; [|done]. by intros [= <-].
  - case_decide; [by intros [= <-]|].
    destruct (run_task 0 s) as [s1|] eqn:Hrun; [|done]. intros Hwait.
    apply IH in Hwait. apply run_task_account in Hrun. lia.
Qed.

Lemma wait_dequeue_account fuel s s' :
  wait_dequeue fuel s = Some s' → enqueue_account s' = enqueue_account s.
Proof.
  revert s. induction fuel as [|fuel IH]; intros s; simpl.
  - case_decide; [|done]. by intros [= <-].
  - case_decide; [by intros [= <-]|].
    destruct (loops s) as [|w ws]; [done|].
    destruct (worker_run w s) as [[[] s1]|] eqn:Hrun; intros Hwait;
      apply IH in Hwait; try apply worker_run_account in Hrun;
      unfold enqueue_account in *; simpl in *; lia.
Qed.

Lemma stop_all_account ws s :
  enqueue_account (foldl (λ s' w, worker_stop w s') s ws) = enqueue_account s.
Proof.
  revert s. induction ws as [|w ws IH]; intros s; simpl; [done|].
  rewrite IH. unfold enqueue_account. simpl.
  rewrite count_calls_snoc. simpl. lia.
Qed.

Lemma launch_n_account n name q s :
  enqueue_account (launch_n n name q s) = enqueue_account s.
Proof.
  revert s. induction n as [|n IH]; intros s; simpl; [done|].
  rewrite IH. unfold enqueue_account.
  destruct (launch_spec name q s) as (_ & _ & _ & -> & -> & _).
  rewrite count_calls_snoc. simpl. lia.
Qed.

Lemma Start_range_account l s s' :
  Start_range l s = Return s' → enqueue_account s' = enqueue_account s.
Proof.
  revert s. induction l as [|[name [q|]] l IH]; intros s; simpl.
  - by intros [= <-].
  - intros Hs. apply IH in Hs. by rewrite Hs, launch_n_account.
  - case_decide; [done|]. apply IH.
Qed.

Lemma exec_account o s s' :
  exec o s = Some s' →
  (enqueue_account s'
   ≤ enqueue_account s
     + match o with
       | OpTrigger name args =>
         match (Trigger name args s).1 with None => 1 | Some _ => 0 end
       | _ => 0
       end)%nat.
Proof.
  destruct o as [name queue|name queueName hd|name args| |n|fuel|i|i]; simpl.
  - unfold RegisterQueue. destruct queue as [q|]; [|done].
    destruct (queues s !! name); [done|]. intros [= <-].
    unfold enqueue_account. simpl. lia.
  - unfold AddHandler. intros [= <-].
    destruct (queue_at s queueName); [|simpl; lia].
    destruct (handlerQueueNames s !! name); unfold enqueue_account; simpl; lia.
  - unfold Trigger. intros [= <-].
    destruct (handlerQueueNames s !! name); unfold enqueue_account; simpl;
      rewrite ?length_app; simpl; lia.
  - unfold Start. destruct (Start_range _ s) as [s1|] eqn:Hs; [|done].
    intros [= <-]. apply Start_range_account in Hs. simpl. lia.
  - intros [= <-]. unfold enqueue_account. simpl. lia.
  - unfold Stop.
    destruct (wait_enqueue fuel s) as [s1|] eqn:H1; [|done]. simpl.
    destruct (wait_dequeue fuel (stop_workers s1)) as [s2|] eqn:H2; [|done].
    simpl. intros [= <-].
    apply wait_enqueue_account in H1. apply wait_dequeue_account in H2.
    unfold stop_workers in H2. rewrite stop_all_account in H2.
    unfold enqueue_account in *. simpl in *. lia.
  - intros Hrun. apply run_task_account in Hrun. lia.
  - unfold run_loop. destruct (loops s !! i) as [w|]; [|done].
    destruct (worker_run w s) as [[[] s1]|] eqn:Hrun; [| |done];
      intros [= <-]; apply worker_run_account in Hrun;
      unfold enqueue_account in *; simpl in *; lia.
Qed.

(** X6: along any run, the calls of [Enqueue] made and the goroutines of
    [Trigger] still pending grow by no more than the calls of [Trigger] that
    returned nil: no call of [Trigger] is enqueued twice.  From the initial
    state, the calls of [Enqueue] are at most the successful calls of
    [Trigger]. *)
Theorem one_enqueue_per_trigger os s s' :
  run os s = Some s' →
  (enqueue_account s' ≤ enqueue_account s + successful_triggers os s)%nat ∧
  (enqueue_account s = 0%nat →
   (count_calls is_enqueue (calls s') ≤ successful_triggers os s)%nat).
Proof.
  intros Hrun.
  assert (enqueue_account s' ≤ enqueue_account s + successful_triggers os s)%nat
    as Hle.
  { revert s Hrun. induction os as [|o os IH]; intros s; simpl.
    - intros [= <-]. lia.
    - destruct (exec o s) as [s1|] eqn:Hex; [|done]. simpl. intros Hrun.
      apply IH in Hrun. apply exec_account in Hex. lia. }
  split; [done|]. intros H0. unfold enqueue_account in Hle at 1. lia.
Qed.

End EventMore.

(** * More on the build command *)

(** ** The version tag *)

Lemma repo_version_returns env vcs args version r out :
  repo_version env vcs args version = (r, out) →
  (∀ m e, PanicOnError env m e = Return tt) → ∃ v, r = Return v.
Proof.
  unfold repo_version. intros Hr Hp.
  destruct (look_path env vcs) as [e|bin]; [injection Hr as <- <-; eauto|].
  destruct (command_output env bin args) as [line [e|]];
    [rewrite Hp in Hr|]; injection Hr as <- <-; eauto.
Qed.

(** X7: [detectVersionTag] returns a version tag given with [-tag] as it is,
    asking and printing nothing.  Without one, the version it returns is
    never empty (the time stamp stands in for an empty answer of the version
    control), it panics only where [util.PanicOnError] does, and a missing
    [git] command in a git repository yields the time stamp and one warning,
    in which [%s] is printed as it stands. *)
Theorem detectVersionTag_spec env c :
  (versionTag c ≠ "" → detectVersionTag env c = (Return (versionTag c), [])) ∧
  ((∀ k, time_now env k ≠ "") →
   ∀ v out, detectVersionTag env c = (Return v, out) → v ≠ "") ∧
  ((∀ m e, PanicOnError env m e = Return tt) →
   ∃ v out, detectVersionTag env c = (Return v, out)) ∧
  (versionTag c = "" → stat_is_dir env ".git" = true →
   time_now env 0 ≠ "" → (∃ e, look_path env "git" = inl e) →
   detectVersionTag env c
   = (Return (time_now env 0),
      [Println2 (warning_not_found "git") (time_now env 0)])).
Proof.
  unfold detectVersionTag. split_and!.
  - intros Htag. by rewrite decide_True.
  - intros Hnow v out. case_decide as Htag; [by intros [= <- _]|].
    destruct (if decide (find_repo env = ".git") then _ else _)
      as [[version|pv] out0]; [|done].
    case_decide; intros [= <- _]; [apply Hnow|done].
  - intros Hp. case_decide as Htag; [eexists _, _; reflexivity|].
    destruct (if decide (find_repo env = ".git") then _ else _)
      as [r out0] eqn:Hr.
    assert (∃ v, r = Return v) as [version ->].
    { repeat case_decide.
      - by eapply repo_version_returns.
      - by eapply repo_version_returns.
      - injection Hr as <- <-. eauto. }
    clear Hr. case_decide; eexists _, _; reflexivity.
  - intros Htag Hgit Hnow [e Hlook].
    destruct (decide (versionTag c ≠ "")) as [Hne|_]; [done|].
    assert (find_repo env = ".git") as ->.
    { unfold find_repo. simpl. by rewrite Hgit. }
    destruct (decide (".git" = ".git")) as [_|Hne]; [|done].
    unfold repo_version. rewrite Hlook.
    destruct (decide (time_now env 0 = "")) as [Hempty|_]; done.
Qed.

(** ** The resources *)

Lemma node_induction (P : node → Prop) :
  (∀ name, P (File name)) →
  (∀ name children, Forall P children → P (Dir name children)) →
  ∀ n, P n.
Proof.
  intros Hfile Hdir. fix IH 1. intros [name|name children].
  - apply Hfile.
  - apply Hdir. induction children as [|c children IHc]; constructor;
      [apply IH|apply IHc].
Qed.

Lemma common_prefix_app (a b : path) : common_prefix a (a ++ b) = length a.
Proof.
  induction a as [|x a IH]; simpl; [by destruct b|].
  by rewrite decide_True, IH.
Qed.

Lemma Rel_below (root rel : path) : Rel root (root ++ rel) = rel.
Proof.
  unfold Rel. rewrite common_prefix_app, Nat.sub_diag. simpl.
  by rewrite drop_app_length.
Qed.

Lemma below_child (rel0 : path) (name : string) (l : list path) :
  (rel0 ++.) <$> ((name ::.) <$> l) = ((rel0 ++ [name]) ++.) <$> l.
Proof.
  rewrite <- list_fmap_compose. apply list_fmap_ext. intros _ rel _. simpl.
  by rewrite <- app_assoc.
Qed.

Lemma visible_files_hidden n : hidden (node_name n) = true → visible_files n = [].
Proof. destruct n as [name|name children]; simpl; by intros ->. Qed.

Lemma visible_files_components n rel :
  rel ∈ visible_files n →
  hidden (node_name n) = false ∧ Forall (λ name, hidden name = false) rel.
Proof.
  revert rel. induction n as [name|name children IH] using node_induction;
    intros rel; simpl.
  - destruct (hidden name); [by intros ?%elem_of_nil|].
    intros ->%list_elem_of_singleton. done.
  - destruct (hidden name); [by intros ?%elem_of_nil|]. intros Hin.
    split; [done|]. apply list_elem_of_In, in_flat_map in Hin as (c & Hc & Hin).
    apply list_elem_of_In in Hc, Hin.
    apply list_elem_of_fmap in Hin as (rel' & -> & Hrel').
    rewrite Forall_forall in IH. destruct (IH c Hc rel' Hrel') as [Hn Hall].
    by constructor.
Qed.

(** What walking the tree [n], found at [root ++ rel0], adds to the map
    [acc]: an entry for each visible file, under its path from the root. *)
Lemma walk_collect root n :
  names_ok n → ∀ rel0 acc,
  ∃ r acc',
    walk (collect_visit root) (root ++ rel0) n acc = (r, acc') ∧
    (r = WalkNil ∨ (r = SkipDir ∧ node_is_dir n = true)) ∧
    ∀ k, acc' !! k
         = if decide (k ∈ (rel0 ++.) <$> visible_files n)
           then Some (root ++ k) else acc !! k.
Proof.
  induction n as [name|name children IH] using node_induction;
    intros Hok rel0 acc; inversion Hok as [? Hname|? ? Hname Hoks]; subst.
  - destruct name as [|c name]; [done|]. simpl.
    destruct (Ascii.eqb c ".").
    + eexists _, _. split; [done|]. split; [by left|]. intros k.
      by rewrite decide_False by apply not_elem_of_nil.
    + rewrite Rel_below. eexists _, _. split; [done|]. split; [by left|].
      intros k. simpl. rewrite app_nil_r.
      destruct (decide (k ∈ [rel0])) as [->%list_elem_of_singleton|Hne].
      * by rewrite lookup_insert_eq.
      * rewrite lookup_insert_ne; [done|]. intros ->. apply Hne. by left.
  - destruct name as [|c name]; [done|]. simpl.
    destruct (Ascii.eqb c ".").
    { eexists _, _. split; [done|]. split; [by right|]. intros k.
      by rewrite decide_False by apply not_elem_of_nil. }
    enough (∃ acc',
      walk_names (walk (collect_visit root)) (root ++ rel0) children acc
      = (WalkNil, acc') ∧
      ∀ k, acc' !! k
           = if decide (k ∈ (rel0 ++.) <$>
                          flat_map (λ c, (node_name c ::.) <$> visible_files c)
                            children)
             then Some (root ++ k) else acc !! k)
      as (acc' & Hw & Hk).
    { exists WalkNil, acc'. split; [done|]. split; [by left|]. done. }
    clear Hok Hname. revert acc.
    induction children as [|ch children IHc]; intros acc.
    { exists acc. split; [done|]. intros k.
      by rewrite decide_False by apply not_elem_of_nil. }
    apply Forall_cons in IH as [IHch IH]. apply Forall_cons in Hoks as [Hch Hoks].
    destruct (IHch Hch (rel0 ++ [node_name ch]) acc) as (r & acc1 & Hw1 & Hr & Hk1).
    destruct (IHc IH Hoks acc1) as (acc' & Hw & Hk).
    exists acc'. split.
    { cbn [walk_names]. rewrite <- app_assoc, Hw1.
      destruct Hr as [->|[-> ->]]; exact Hw. }
    intros k. rewrite Hk, Hk1. cbn [flat_map].
    rewrite fmap_app, below_child.
    destruct (decide (k ∈ (rel0 ++.) <$> flat_map _ children)) as [Hin|Hnin];
      destruct (decide (k ∈ ((rel0 ++ [node_name ch]) ++.) <$> visible_files ch))
        as [Hin1|Hnin1];
      destruct (decide (k ∈ _ ++ _)) as [Hin2|Hnin2]; try done.
    + exfalso. apply Hnin2, elem_of_app. by right.
    + exfalso. apply Hnin2, elem_of_app. by right.
    + exfalso. apply Hnin2, elem_of_app. by left.
    + apply elem_of_app in Hin2 as [?|?]; done.
Qed.

(** X8: [collectResourcePaths] on a readable file tree returns a map whose
    keys are exactly the paths, relative to the root, of the files that are
    not hidden and lie in no hidden directory, each with its full path as
    value.  No directory, no name that begins with a dot and nothing below
    such a name is a key; a hidden root gives the empty map, and so does a
    root that does not exist. *)
Theorem collectResourcePaths_spec root n :
  names_ok n →
  (∃ m, collectResourcePaths root (Some n) = Return m ∧
     ∀ rel p, m !! rel = Some p ↔ rel ∈ visible_files n ∧ p = root ++ rel) ∧
  (∀ rel, rel ∈ visible_files n →
     hidden (node_name n) = false ∧
     Forall (λ name, hidden name = false) rel) ∧
  (hidden (node_name n) = true →
     collectResourcePaths root (Some n) = Return ∅) ∧
  collectResourcePaths root None = Return ∅.
Proof.
  intros Hok.
  destruct (walk_collect root n Hok [] ∅) as (r & m & Hw & Hr & Hk).
  rewrite app_nil_r in Hw.
  assert (([] ++.) <$> visible_files n = visible_files n) as Hid
    by apply list_fmap_id.
  rewrite Hid in Hk. clear Hid.
  assert (collectResourcePaths root (Some n) = Return m) as Hm.
  { unfold collectResourcePaths, Walk. rewrite Hw.
    by destruct Hr as [->|[-> _]]. }
  split_and!.
  - exists m. split; [done|]. intros rel p. rewrite Hk.
    destruct (decide (rel ∈ visible_files n)) as [Hin|Hnin].
    + split; [intros [= <-]; done|]. by intros [_ ->].
    + rewrite lookup_empty. split; [done|]. by intros [? _].
  - apply visible_files_components.
  - intros Hh. rewrite Hm. f_equal. apply map_eq. intros k.
    rewrite Hk, (visible_files_hidden _ Hh), lookup_empty.
    by rewrite decide_False by apply not_elem_of_nil.
  - done.
Qed.

(** * More on the loggers *)

Lemma with_prefix_twice a b o :
  with_prefix a (with_prefix b o) = with_prefix a o.
Proof. done. Qed.

Lemma setPrefix_range_spec ls prefix h :
  (None ∉ ls → ∃ h', setPrefix_range ls prefix h = Return h') ∧
  (∀ h', setPrefix_range ls prefix h = Return h' →
     (None ∉ ls) ∧
     ∀ p, h' !! p = (if decide (Some p ∈ ls)
                     then with_prefix prefix <$> h !! p else h !! p)).
Proof.
  revert h. induction ls as [|[q|] ls IH]; intros h; cbn [setPrefix_range].
  - split; [eauto|]. intros h' [= <-]. split; [apply not_elem_of_nil|].
    intros p. destruct (decide (Some p ∈ [])) as [Hin|_]; [|done].
    by apply elem_of_nil in Hin.
  - destruct (IH (SetPrefix prefix q h)) as [IH1 IH2]. split.
    + intros Hnn. apply IH1. intros Hin. apply Hnn. by right.
    + intros h' Hh'. destruct (IH2 _ Hh') as [Hnn Hk]. split.
      { intros [?|?]%elem_of_cons; done. }
      intros p. rewrite Hk. unfold SetPrefix. rewrite list_lookup_alter.
      destruct (decide (Some p ∈ ls)) as [Hin|Hnin];
        destruct (decide (Some p ∈ Some q :: ls)) as [Hin'|Hnin'];
        destruct (decide (q = p)) as [->|Hne]; try done.
      * by destruct (h !! p).
      * exfalso. apply Hnin'. by right.
      * exfalso. apply Hnin'. by right.
      * apply elem_of_cons in Hin' as [[= ->]|?]; done.
      * exfalso. apply Hnin'. by left.
  - split; [|done]. intros Hnn. exfalso. apply Hnn. by left.
Qed.

(** What the four passes of [setPrefix] leave: every logger has the prefix of
    the last level that lists it, or the prefix it had. *)
Lemma set_prefixes_spec l h :
  (no_nil_logger l → ∃ h', set_prefixes l h = Return h') ∧
  (∀ h', set_prefixes l h = Return h' →
     no_nil_logger l ∧
     ∀ p, h' !! p
          = (λ o, with_prefix (default (lo_prefix o) (last_tag l p)) o)
              <$> h !! p).
Proof.
  unfold set_prefixes, setPrefix, no_nil_logger, level_tags. split.
  - intros Hall.
    apply Forall_cons in Hall as [Hd Hall].
    apply Forall_cons in Hall as [Hi Hall].
    apply Forall_cons in Hall as [Hw Hall].
    apply Forall_cons in Hall as [He _]. simpl in *.
    destruct (proj1 (setPrefix_range_spec _ "[DEBUG] " h) Hd) as [h1 ->].
    simpl.
    destruct (proj1 (setPrefix_range_spec _ "[INFO] " h1) Hi) as [h2 ->].
    simpl.
    destruct (proj1 (setPrefix_range_spec _ "[WARN] " h2) Hw) as [h3 ->].
    simpl.
    apply (proj1 (setPrefix_range_spec _ "[ERROR] " h3) He).
  - intros h'.
    destruct (setPrefix_range (default [] (DEBUG l)) "[DEBUG] " h)
      as [h1|] eqn:H1; [|done]. simpl.
    destruct (setPrefix_range (default [] (INFO l)) "[INFO] " h1)
      as [h2|] eqn:H2; [|done]. simpl.
    destruct (setPrefix_range (default [] (WARN l)) "[WARN] " h2)
      as [h3|] eqn:H3; [|done]. simpl.
    intros H4.
    apply setPrefix_range_spec in H1 as [Hd K1], H2 as [Hi K2],
      H3 as [Hw K3], H4 as [He K4].
    split; [by repeat constructor|].
    intros p. rewrite K4, K3, K2, K1. unfold last_tag, level_tags, lists.
    rewrite !filter_cons, filter_nil. simpl.
    repeat case_decide; destruct (h !! p) as [[]|]; simpl; done.
Qed.

Lemma initLogger_eq l h :
  initLogger l h
  = let '(l1, ha) := alloc_levels (default (MkLogger None None None None) l) h in
    outcome_bind (set_prefixes l1 ha) (λ h', Return (l1, h')).
Proof.
  unfold initLogger, alloc_levels, set_prefixes.
  destruct (or_null (DEBUG _) h) as [debug h1].
  destruct (or_null (INFO _) h1) as [info h2].
  destruct (or_null (WARN _) h2) as [warn h3].
  destruct (or_null (ERROR _) h3) as [errors h4]. simpl.
  destruct (setPrefix debug _ h4) as [h5|]; [|done]. simpl.
  destruct (setPrefix info _ h5) as [h6|]; [|done]. simpl.
  destruct (setPrefix warn _ h6) as [h7|]; [|done]. simpl.
  by destruct (setPrefix errors _ h7).
Qed.

(** What [or_null] does to one level: a given list stays, a nil level gets a
    null logger at the next free place of the store. *)
Lemma or_null_spec loggers h ls' h1 :
  or_null loggers h = (ls', h1) →
  ∃ ext, h1 = h ++ ext ∧
    Forall (λ o, o = LoggerObj NullKind "" 0) ext ∧
    (None ∉ default [] ls' ↔ None ∉ default [] loggers) ∧
    match loggers with
    | Some ls => ls' = Some ls
    | None => ls' = Some [Some (length h)] ∧
              h1 !! length h = Some (LoggerObj NullKind "" 0)
    end.
Proof.
  destruct loggers as [ls|]; simpl; intros [= <- <-].
  - exists []. by rewrite app_nil_r.
  - exists [LoggerObj NullKind "" 0].
    split; [done|]. split; [by repeat constructor|]. split.
    + simpl. split; [intros _; apply not_elem_of_nil|].
      intros _ [?|[]%elem_of_nil]%elem_of_cons. done.
    + split; [done|]. by rewrite lookup_app_r, Nat.sub_diag.
Qed.

Lemma alloc_levels_spec l h l1 ha :
  alloc_levels l h = (l1, ha) →
  ∃ ext, ha = h ++ ext ∧
    Forall (λ o, o = LoggerObj NullKind "" 0) ext ∧
    (no_nil_logger l1 ↔ no_nil_logger l) ∧
    Forall (λ F, match F l with
                 | Some ls => F l1 = Some ls
                 | None => ∃ p, F l1 = Some [Some p] ∧ h !! p = None ∧
                                ha !! p = Some (LoggerObj NullKind "" 0)
                 end) levels.
Proof.
  unfold alloc_levels.
  destruct (or_null (DEBUG l) h) as [debug h1] eqn:H1.
  destruct (or_null (INFO l) h1) as [info h2] eqn:H2.
  destruct (or_null (WARN l) h2) as [warn h3] eqn:H3.
  destruct (or_null (ERROR l) h3) as [errors h4] eqn:H4.
  intros [= <- <-].
  apply or_null_spec in H1 as (e1 & -> & A1 & N1 & L1).
  apply or_null_spec in H2 as (e2 & -> & A2 & N2 & L2).
  apply or_null_spec in H3 as (e3 & -> & A3 & N3 & L3).
  apply or_null_spec in H4 as (e4 & -> & A4 & N4 & L4).
  exists (e1 ++ e2 ++ e3 ++ e4). split_and!.
  - by rewrite <- !app_assoc.
  - by repeat apply Forall_app_2.
  - unfold no_nil_logger, level_tags. simpl.
    rewrite !Forall_cons, !Forall_nil. simpl. tauto.
  - unfold levels. repeat constructor.
    + destruct (DEBUG l) as [ls|]; simpl; [done|]. destruct L1 as [-> Hp].
      eexists. split; [done|]. split; [by apply lookup_ge_None|].
      rewrite <- !app_assoc, app_assoc.
      apply lookup_app_l_Some. done.
    + destruct (INFO l) as [ls|]; simpl; [done|]. destruct L2 as [-> Hp].
      eexists. split; [done|].
      split; [apply lookup_ge_None; rewrite length_app; lia|].
      rewrite <- (app_assoc _ e3 e4).
      apply lookup_app_l_Some. done.
    + destruct (WARN l) as [ls|]; simpl; [done|]. destruct L3 as [-> Hp].
      eexists. split; [done|].
      split; [apply lookup_ge_None; rewrite !length_app; lia|].
      apply lookup_app_l_Some. done.
    + destruct (ERROR l) as [ls|]; simpl; [done|]. destruct L4 as [-> Hp].
      eexists. split; [done|].
      split; [apply lookup_ge_None; rewrite !length_app; lia|]. done.
Qed.

(** X9: [initLogger] panics exactly when one of the levels lists a nil
    logger.  When it returns, no level is nil: a level that was given keeps
    its list, a level that was nil (all four for a nil [Logger]) holds one
    new null logger, and the loggers that were there keep their kind and
    their flags. *)
Theorem initLogger_levels l h :
  let l0 := default (MkLogger None None None None) l in
  (no_nil_logger l0 ↔ ∃ l' h', initLogger l h = Return (l', h')) ∧
  ∀ l' h', initLogger l h = Return (l', h') →
    Forall (λ F, match F l0 with
                 | Some ls => F l' = Some ls
                 | None =>
                   ∃ p prefix, F l' = Some [Some p] ∧ h !! p = None ∧
                     h' !! p = Some (LoggerObj NullKind prefix 0)
                 end) levels ∧
    (∀ p o, h !! p = Some o →
       ∃ prefix, h' !! p = Some (LoggerObj (lo_kind o) prefix (lo_flags o))).
Proof.
  intros l0. rewrite initLogger_eq. fold l0.
  destruct (alloc_levels l0 h) as [l1 ha] eqn:Ha.
  destruct (alloc_levels_spec _ _ _ _ Ha) as (ext & -> & Hext & Hnn & Hlv).
  destruct (set_prefixes_spec l1 (h ++ ext)) as [Hret Hspec].
  split.
  - split.
    + intros H0. destruct (Hret (proj2 Hnn H0)) as [h' ->]. simpl. eauto.
    + intros (l' & h' & Hi).
      destruct (set_prefixes l1 (h ++ ext)) as [h1|] eqn:Hs; [|done].
      apply Hnn. by apply (Hspec h1).
  - intros l' h' Hi.
    destruct (set_prefixes l1 (h ++ ext)) as [h1|] eqn:Hs; [|done].
    simpl in Hi. injection Hi as <- <-.
    destruct (Hspec _ eq_refl) as [_ Hk]. split.
    + eapply Forall_impl; [exact Hlv|]. intros F HF. simpl in HF.
      destruct (F l0); [done|]. destruct HF as (p & HF & Hp & Hp').
      eexists p, _. split; [done|]. split; [done|].
      rewrite Hk, Hp'. done.
    + intros p o Hp. eexists. rewrite Hk, (lookup_app_l_Some _ _ _ _ Hp). done.
Qed.

(** X10: when [initLogger] returns, every logger has the prefix of the last
    of the levels DEBUG, INFO, WARN, ERROR that lists it, and a logger that
    no level lists keeps its prefix.  So every logger of ERROR has the
    prefix of ERROR, also one that DEBUG lists as well; a logger of DEBUG has
    the prefix of DEBUG when no later level lists it. *)
Theorem initLogger_prefix l h l' h' :
  initLogger l h = Return (l', h') →
  (∀ p o', h' !! p = Some o' →
     lo_prefix o' = default (from_option lo_prefix "" (h !! p)) (last_tag l' p)) ∧
  (∀ p o', lists p (ERROR l') → h' !! p = Some o' →
     lo_prefix o' = "[ERROR] ") ∧
  (∀ p o', lists p (DEBUG l') → ¬ lists p (INFO l') → ¬ lists p (WARN l') →
     ¬ lists p (ERROR l') → h' !! p = Some o' → lo_prefix o' = "[DEBUG] ").
Proof.
  rewrite initLogger_eq.
  destruct (alloc_levels _ h) as [l1 ha] eqn:Ha.
  destruct (alloc_levels_spec _ _ _ _ Ha) as (ext & -> & Hext & _ & _).
  destruct (set_prefixes l1 (h ++ ext)) as [h1|] eqn:Hs; [|done].
  intros [= <- <-].
  destruct (proj2 (set_prefixes_spec l1 (h ++ ext)) _ Hs) as [_ Hk].
  assert (∀ p o', h1 !! p = Some o' →
    lo_prefix o' = default (from_option lo_prefix "" (h !! p)) (last_tag l1 p))
    as Hmain.
  { intros p o'. rewrite Hk.
    destruct ((h ++ ext) !! p) as [o|] eqn:Hp; [|done]. intros [= <-]. simpl.
    f_equal. destruct (h !! p) as [o0|] eqn:Hp0.
    - apply (lookup_app_l_Some _ ext) in Hp0. simpl. congruence.
    - simpl. apply lookup_ge_None in Hp0. rewrite lookup_app_r in Hp by done.
      rewrite Forall_forall in Hext.
      by rewrite (Hext o) by (by eapply list_elem_of_lookup_2). }
  split_and!; [done| |].
  - intros p o' He Hp. rewrite (Hmain _ _ Hp).
    unfold last_tag, level_tags. rewrite !filter_cons, filter_nil. simpl.
    rewrite (decide_True (P := lists p (ERROR l1))) by done.
    by repeat case_decide.
  - intros p o' Hd Hi Hw He Hp. rewrite (Hmain _ _ Hp).
    unfold last_tag, level_tags. rewrite !filter_cons, filter_nil. simpl.
    rewrite (decide_True (P := lists p (DEBUG l1))) by done.
    rewrite (decide_False (P := lists p (INFO l1))) by done.
    rewrite (decide_False (P := lists p (WARN l1))) by done.
    by rewrite (decide_False (P := lists p (ERROR l1))) by done.
Qed.

(** X11: [initLogger] on what [initLogger] returned changes nothing: no
    logger is added and no prefix changes. *)
Theorem initLogger_idempotent l h l' h' :
  initLogger l h = Return (l', h') →
  initLogger (Some l') h' = Return (l', h').
Proof.
  rewrite !initLogger_eq.
  destruct (alloc_levels _ h) as [l1 ha] eqn:Ha.
  destruct (alloc_levels_spec _ _ _ _ Ha) as (ext & -> & _ & _ & Hlv).
  destruct (set_prefixes l1 (h ++ ext)) as [h1|] eqn:Hs; [|done].
  intros [= <- <-]. simpl.
  destruct (proj2 (set_prefixes_spec l1 (h ++ ext)) _ Hs) as [Hnn Hk].
  assert (alloc_levels l1 h1 = (l1, h1)) as ->.
  { unfold levels in Hlv.
    apply Forall_cons in Hlv as [Hd Hlv]. apply Forall_cons in Hlv as [Hi Hlv].
    apply Forall_cons in Hlv as [Hw Hlv]. apply Forall_cons in Hlv as [He _].
    assert (∀ F, match F (default (MkLogger None None None None) l) with
                 | Some ls => F l1 = Some ls
                 | None => ∃ p, F l1 = Some [Some p] ∧ h !! p = None ∧
                     (h ++ ext) !! p = Some (LoggerObj NullKind "" 0)
                 end → ∃ ls, F l1 = Some ls) as Hsome.
    { intros F HF. destruct (F _); [eauto|]. destruct HF as (p & -> & _). eauto. }
    apply Hsome in Hd as [d Hd], Hi as [i Hi], Hw as [w Hw], He as [e He].
    unfold alloc_levels. rewrite Hd, Hi, Hw, He. simpl.
    destruct l1. simpl in *. by subst. }
  destruct (proj1 (set_prefixes_spec l1 h1) Hnn) as [h2 Hs2]. rewrite Hs2.
  simpl. do 2 f_equal.
  destruct (proj2 (set_prefixes_spec l1 h1) _ Hs2) as [_ Hk2].
  apply list_eq. intros p. rewrite Hk2, Hk.
  destruct ((h ++ ext) !! p) as [o|]; [|done]. simpl.
  by destruct (last_tag l1 p).
Qed.

(** * The further properties on the small application *)

Section MoreExamples.
#[local] Existing Instances mem_backend wire_codec mem_contract wire_contract.

Lemma workersPerQueue_at_least_one_witness :
  workersPerQueue (SetWorkersPerQueue 0 (ex_init 4)) = 1 ∧
  workersPerQueue (SetWorkersPerQueue 5 (ex_init 4)) = 5 ∧
  1 ≤ workersPerQueue ex_two_queues.
Proof.
  destruct (@workersPerQueue_at_least_one mem_backend wire_codec)
    as [Hset Hinv].
  split; [exact (proj1 (Hset 0 (ex_init 4)))|].
  split; [exact (proj1 (Hset 5 (ex_init 4)))|].
  apply Hinv, ex_two_queues_reachable.
Defined.


Lemma registries_only_grow_witness :
  run ex_later (ex_bound 4) = Some (after ex_later (ex_bound 4)) ∧
  queues (after ex_later (ex_bound 4)) !! "mem" = Some (Some 0%nat) ∧
  handlerQueueNames (after ex_later (ex_bound 4)) !! "log.error"
  = Some (HandlerQueueName h_ok "mem").
Proof.
  assert (Hrun : run ex_later (ex_bound 4) = Some (after ex_later (ex_bound 4)))
    by (vm_compute; reflexivity).
  split; [exact Hrun|].
  destruct (registries_only_grow _ _ _ Hrun) as [Hq Hh].
  split; [apply Hq|apply Hh]; reflexivity.
Defined.

Lemma enqueue_counter_counts_witness :
  wg_enqueue (ex_triggered 4) = 1%nat ∧
  ∃ s1, run_task 0 (ex_triggered 4) = Some s1 ∧
        wg_enqueue s1 = 0%nat ∧ length (tasks s1) = 0%nat.
Proof.
  destruct (enqueue_counter_counts _ (ex_triggered_reachable 4))
    as (Hc & Hrun & _).
  assert (H1 : wg_enqueue (ex_triggered 4) = 1%nat) by (rewrite Hc; reflexivity).
  split; [exact H1|].
  exists (after [OpRunTask 0] (ex_triggered 4)).
  assert (Hr : run_task 0 (ex_triggered 4)
               = Some (after [OpRunTask 0] (ex_triggered 4)))
    by (vm_compute; reflexivity).
  destruct (Hrun _ _ Hr) as [Hs Hl].
  assert (H0 : wg_enqueue (after [OpRunTask 0] (ex_triggered 4)) = 0%nat)
    by (apply Nat.succ_inj; rewrite <- Hs; exact H1).
  split; [exact Hr|]. split; [exact H0|]. rewrite <- Hl. exact H0.
Defined.

Lemma Stop_idempotent_witness :
  Stop 1 (ex_started 4) = Some (after [OpStop 1] (ex_started 4)) ∧
  idle (after [OpStop 1] (ex_started 4)) ∧
  Stop 0 (after [OpStop 1] (ex_started 4))
  = Some (after [OpStop 1] (ex_started 4)).
Proof.
  assert (Hs : Stop 1 (ex_started 4) = Some (after [OpStop 1] (ex_started 4)))
    by (vm_compute; reflexivity).
  split; [exact Hs|].
  destruct (proj2 (Stop_idempotent (ex_started 4) 1) _ Hs) as [Hidle Hagain].
  split; [exact Hidle|apply Hagain].
Defined.

Lemma one_enqueue_per_trigger_witness :
  run ex_two_triggers (ex_init 4) = Some (after ex_two_triggers (ex_init 4)) ∧
  successful_triggers ex_two_triggers (ex_init 4) = 1%nat ∧
  (count_calls is_enqueue (calls (after ex_two_triggers (ex_init 4))) ≤ 1)%nat.
Proof.
  assert (Hrun : run ex_two_triggers (ex_init 4)
                 = Some (after ex_two_triggers (ex_init 4)))
    by (vm_compute; reflexivity).
  assert (Hn : successful_triggers ex_two_triggers (ex_init 4) = 1%nat)
    by (vm_compute; reflexivity).
  split; [exact Hrun|]. split; [exact Hn|].
  destruct (one_enqueue_per_trigger _ _ _ Hrun) as [_ H0].
  rewrite <- Hn. apply H0. reflexivity.
Defined.

End MoreExamples.

Lemma detectVersionTag_spec_witness :
  detectVersionTag ex_env (BuildCommand false "v1.2") = (Return "v1.2", []) ∧
  (∃ v out, detectVersionTag ex_env (BuildCommand false "") = (Return v, out) ∧
            v ≠ "") ∧
  detectVersionTag ex_env (BuildCommand false "")
  = (Return (time_now ex_env 0),
     [Println2 (warning_not_found "git") (time_now ex_env 0)]).
Proof.
  split; [|split].
  - apply (detectVersionTag_spec ex_env (BuildCommand false "v1.2")).
    simpl. discriminate.
  - destruct (detectVersionTag_spec ex_env (BuildCommand false ""))
      as (_ & Hne & Hret & _).
    destruct Hret as (v & out & Hd); [reflexivity|].
    exists v, out. split; [exact Hd|].
    apply (Hne (λ k, ltac:(simpl; discriminate)) _ _ Hd).
  - apply (detectVersionTag_spec ex_env (BuildCommand false ""));
      [reflexivity|reflexivity|simpl; discriminate|eexists; reflexivity].
Defined.

Lemma collectResourcePaths_spec_witness :
  names_ok ex_tree ∧
  ∃ m, collectResourcePaths ["app"] (Some ex_tree) = Return m ∧
       m !! ["main.go"] = Some ["app"; "main.go"] ∧
       m !! ["public"; "robots.txt"] = Some ["app"; "public"; "robots.txt"] ∧
       m !! [".git"; "HEAD"] = None ∧
       m !! [".gitignore"] = None ∧
       m !! ["public"; ".keep"] = None.
Proof.
  assert (Hok : names_ok ex_tree)
    by (repeat (constructor; try discriminate)).
  split; [exact Hok|].
  destruct (collectResourcePaths_spec ["app"] ex_tree Hok)
    as ((m & Hm & Hk) & _).
  assert (Hno : ∀ rel, rel ∉ visible_files ex_tree → m !! rel = None).
  { intros rel Hrel. destruct (m !! rel) as [p|] eqn:E; [|reflexivity].
    apply Hk in E as [Hin _]. destruct (Hrel Hin). }
  exists m. split; [exact Hm|].
  split; [apply Hk; split; [|reflexivity];
          apply (bool_decide_unpack _); vm_compute; exact I|].
  split; [apply Hk; split; [|reflexivity];
          apply (bool_decide_unpack _); vm_compute; exact I|].
  split; [|split]; apply Hno; apply (bool_decide_unpack _); vm_compute; exact I.
Defined.

Lemma initLogger_levels_witness :
  no_nil_logger ex_logger ∧
  ∃ l' h',
    initLogger (Some ex_logger) ex_store = Return (l', h') ∧
    DEBUG l' = Some [Some 0%nat] ∧
    ERROR l' = Some [Some 0%nat] ∧
    (∃ p prefix, INFO l' = Some [Some p] ∧ ex_store !! p = None ∧
                 h' !! p = Some (LoggerObj NullKind prefix 0)) ∧
    ∃ prefix, h' !! 0%nat = Some (LoggerObj ConsoleKind prefix 3).
Proof.
  assert (Hnn : no_nil_logger ex_logger).
  { repeat constructor; simpl; apply (bool_decide_unpack _); vm_compute;
      exact I. }
  split; [exact Hnn|].
  pose proof (initLogger_levels (Some ex_logger) ex_store) as H.
  cbv zeta in H. destruct H as [Hret Hlv].
  destruct (proj1 Hret Hnn) as (l' & h' & Hi).
  exists l', h'. split; [exact Hi|].
  destruct (Hlv _ _ Hi) as [Hf Hold].
  unfold levels in Hf.
  apply Forall_cons in Hf as [Hd Hf]. apply Forall_cons in Hf as [Hin Hf].
  apply Forall_cons in Hf as [_ Hf]. apply Forall_cons in Hf as [He _].
  split; [exact Hd|]. split; [exact He|]. split; [exact Hin|].
  apply (Hold 0%nat (LoggerObj ConsoleKind "" 3)). reflexivity.
Defined.

Lemma initLogger_prefix_witness :
  initLogger (Some ex_logger) ex_store = Return (ex_logger_init, ex_store_init) ∧
  lists 0 (DEBUG ex_logger_init) ∧
  lists 0 (ERROR ex_logger_init) ∧
  ∀ o', ex_store_init !! 0%nat = Some o' → lo_prefix o' = "[ERROR] ".
Proof.
  assert (Hi : initLogger (Some ex_logger) ex_store
               = Return (ex_logger_init, ex_store_init)) by reflexivity.
  assert (Hl : lists 0 (Some [Some 0%nat])) by apply list_elem_of_here.
  split; [exact Hi|]. split; [exact Hl|]. split; [exact Hl|].
  intros o'. apply (initLogger_prefix _ _ _ _ Hi). exact Hl.
Defined.

Lemma initLogger_idempotent_witness :
  initLogger (Some ex_logger) ex_store = Return (ex_logger_init, ex_store_init) ∧
  initLogger (Some ex_logger_init) ex_store_init
  = Return (ex_logger_init, ex_store_init).
Proof.
  assert (Hi : initLogger (Some ex_logger) ex_store
               = Return (ex_logger_init, ex_store_init)) by reflexivity.
  split; [exact Hi|]. exact (initLogger_idempotent _ _ _ _ Hi).
Defined.
